(** * Bigram estimator and softmax trainer of [lr_vs_counting.py]

    A shallow embedding of [get_bigram_probs], [softmax], the training loop
    (its body and the loop over the epochs) and [smoothed_loss].

    Modelling conventions.
    - A float64 value is a real number ([R]): a statement over [Matrix] or
      [list R] is about exact real arithmetic, not about rounding, overflow,
      inf or nan.  Where the program's behaviour turns on these, [softmax] and
      [smoothed_loss] are given a second time: over IEEE binary64 ([float],
      evaluated bit for bit) and, for error bounds, over reals with every
      operation rounded.
    - A two-dimensional ndarray is a list of rows ([Matrix]); its shape is the
      number of rows and the common length of the rows.
    - A token id, [start_idx] and [end_idx] are Python ints ([Z]); the
      vocabulary size [V] is a length ([nat]).
    - A raised exception (IndexError on an index out of bounds, ValueError on
      the maximum of an empty array or on misaligned shapes) is [None]. *)

From Stdlib Require Import Reals Lra Lia ZArith Permutation Floats.
From stdpp Require Import base option list.

(** ** ndarray primitives *)

Abbreviation Matrix := (list (list R)).

(** [np.ones((r, c)) * v] *)
Definition np_full (r c : nat) (v : R) : Matrix :=
  replicate r (replicate c (1 * v)%R).

(** [np.zeros((r, c))] *)
Definition np_zeros (r c : nat) : Matrix :=
  replicate r (replicate c 0%R).

(** Index normalisation of numpy along an axis of length [n]: an index in
    [0, n) is used as it is, an index in [-n, 0) counts from the end, anything
    else raises IndexError. *)
Definition np_index (n : nat) (i : Z) : option nat :=
  if decide (0 ≤ i < Z.of_nat n)%Z then Some (Z.to_nat i)
  else if decide (- Z.of_nat n ≤ i < 0)%Z then Some (Z.to_nat (i + Z.of_nat n))
  else None.

(** [M[r, c] = f(M[r, c])], in place. *)
Definition mat_update (f : R → R) (M : Matrix) (r c : Z) : option Matrix :=
  i ← np_index (length M) r;
  row ← M !! i;
  j ← np_index (length row) c;
  Some (<[i := alter f j row]> M).

(** [M[r, c] += 1] *)
Definition mat_incr (M : Matrix) (r c : Z) : option Matrix :=
  mat_update (λ x, x + 1)%R M r c.

(** [M[r, c] = 1] *)
Definition mat_set_one (M : Matrix) (r c : Z) : option Matrix :=
  mat_update (λ _, 1%R) M r c.

(** A [for x in xs: body] loop over a state that the body may abort. *)
Fixpoint for_each {A S : Type} (body : S → A → option S) (xs : list A) (st : S)
  : option S :=
  match xs with
  | [] => Some st
  | x :: xs' => st' ← body st x; for_each body xs' st'
  end.

Definition sum_R (l : list R) : R := foldr Rplus 0%R l.

(** [M / M.sum(axis=1, keepdims=True)]: every row divided by its own sum.
    Where a row sums to 0 numpy yields nan or inf (with a warning, no
    exception) and [Rdiv] yields an unspecified real; no statement below
    relies on the value of such a row. *)
Definition normalize_rows (M : Matrix) : Matrix :=
  (λ row, (λ x, x / sum_R row)%R <$> row) <$> M.

(** ** [get_bigram_probs] *)

Section Estimator.
Variables (V : nat) (start_idx end_idx : Z).

(** The body of the inner loop, at position [i] of [sentence]. *)
Definition count_position (sentence : list Z) (M : Matrix) (i : nat)
  : option Matrix :=
  cur ← sentence !! i;
  M1 ← (if decide (i = 0) then mat_incr M start_idx cur
        else prev ← sentence !! (i - 1); mat_incr M prev cur);
  if decide (Z.of_nat i = Z.of_nat (length sentence) - 1)%Z
  then mat_incr M1 cur end_idx
  else Some M1.

(** [for i in range(len(sentence)): ...] *)
Definition count_sentence (M : Matrix) (sentence : list Z) : option Matrix :=
  for_each (count_position sentence) (seq 0 (length sentence)) M.

(** [for sentence in sentences: ...] *)
Definition count_sentences (sentences : list (list Z)) (M : Matrix)
  : option Matrix :=
  for_each count_sentence sentences M.

Definition get_bigram_probs (sentences : list (list Z)) (smoothing : R)
  : option Matrix :=
  counts ← count_sentences sentences (np_full V V smoothing);
  Some (normalize_rows counts).
End Estimator.

(** The default of the keyword argument [smoothing]. *)
Definition smoothing_default : R := 1%R.

(** ** [softmax] *)

Definition mat_map (f : R → R) (M : Matrix) : Matrix :=
  (λ row : list R, f <$> row) <$> M.

(** An elementwise binary operation on two arrays of one shape, as they are
    wherever the program applies one ([predictions - targets],
    [targets * np.log(predictions)], [W - lr * gradient] on a V×V weight
    matrix); on arrays of different shapes numpy broadcasts or raises, which
    is not modelled. *)
Definition mat_zip (f : R → R → R) (A B : Matrix) : Matrix :=
  zip_with (zip_with f) A B.

(** [a.max()]: the maximum over all the elements; ValueError on an array
    without elements. *)
Definition np_max (a : Matrix) : option R :=
  match concat a with
  | [] => None
  | x :: xs => Some (foldl Rmax x xs)
  end.

(** Lines 69-72 over the reals.  [exp] is exact here and never 0, whereas
    [np.exp] rounds to 0.0 below about -745: for a row that far under the
    maximum of the array the program returns nan (0/0) or entries 0.0, which
    this definition does not show and [softmax_f] below does. *)
Definition softmax (a : Matrix) : option Matrix :=
  m ← np_max a;
  let a' := mat_map (λ x, x - m)%R a in
  let exp_a := mat_map exp a' in
  Some (normalize_rows exp_a).

(** The softmax of the specification, row by row: subtract the maximum of the
    row, exponentiate, divide by the sum of the row. *)
Definition row_max (row : list R) : R :=
  match row with
  | [] => 0%R
  | x :: xs => foldl Rmax x xs
  end.

Definition softmax_row_stable (row : list R) : list R :=
  let e := (λ x, exp (x - row_max row)) <$> row in
  (λ y, y / sum_R e)%R <$> e.

Definition softmax_per_row (a : Matrix) : Matrix := softmax_row_stable <$> a.

(** ** The training loop *)

Definition ncols (M : Matrix) : nat := length (default [] (head M)).

Definition column (j : nat) (M : Matrix) : list R :=
  (λ row, default 0%R (row !! j)) <$> M.

(** [M.T] *)
Definition transpose (M : Matrix) : Matrix :=
  (λ j, column j M) <$> seq 0 (ncols M).

(** [A.dot(B)]; ValueError when a row of [A] is not as long as [B] has rows. *)
Definition np_dot (A B : Matrix) : option Matrix :=
  if decide (Forall (λ a, length a = length B) A)
  then Some ((λ a, (λ j, sum_R (zip_with Rmult a (column j B)))
                     <$> seq 0 (ncols B)) <$> A)
  else None.

(** [np.arange(n)] *)
Definition arange (n : nat) : list Z := Z.of_nat <$> seq 0 n.

(** [M[rows, cols] = 1] for two index arrays of one length. *)
Definition assign_ones (M : Matrix) (rows cols : list Z) : option Matrix :=
  for_each (λ M' rc, mat_set_one M' rc.1 rc.2) (zip rows cols) M.

(** One-hot encoding of the glossary: a vector of length [V] with a single 1
    at the index of the token and 0 elsewhere. *)
Definition one_hot (V : nat) (tok : Z) : list R :=
  (λ k, if decide (Z.of_nat k = tok) then 1%R else 0%R) <$> seq 0 V.

(** [-np.sum(targets * np.log(predictions)) / rows], for positive
    predictions with as many rows as the targets: [ln] is total on [R]
    ([ln 0 = 0]) where [np.log(0)] is -inf, and [mat_zip] truncates. *)
Definition cross_entropy (targets predictions : Matrix) (rows : nat) : R :=
  (- sum_R (sum_R <$> mat_zip Rmult targets (mat_map ln predictions))
   / INR rows)%R.

(** [softmax(inputs.dot(W))] *)
Definition predict (W inputs : Matrix) : option Matrix :=
  logits ← np_dot inputs W;
  softmax logits.

Record step_out := StepOut {
  out_W : Matrix;
  out_loss : R;
  out_predictions : Matrix;
  out_inputs : Matrix;
  out_targets : Matrix
}.

Record train_state := TrainState {
  W : Matrix;
  losses : list R;
  bigram_losses : list R;
  j : Z
}.

Section Trainer.
Variables (V : nat) (start_idx end_idx : Z).

(** [[start_idx] + sentence + [end_idx]] *)
Definition padded (raw : list Z) : list Z := [start_idx] ++ raw ++ [end_idx].

(** The conversion of a sentence into one-hot inputs and targets. *)
Definition make_examples (raw : list Z) : option (Matrix * Matrix) :=
  let sentence := padded raw in
  let n := length sentence in
  inputs ← assign_ones (np_zeros (n - 1) V) (arange (n - 1))
                       (take (n - 1) sentence);
  targets ← assign_ones (np_zeros (n - 1) V) (arange (n - 1))
                        (drop 1 sentence);
  Some (inputs, targets).

(** Forward pass, gradient descent step and loss of one sentence. *)
Definition sgd_step (lr : R) (W0 : Matrix) (raw : list Z) : option step_out :=
  it ← make_examples raw;
  let n := length (padded raw) in
  predictions ← predict W0 it.1;
  grad ← np_dot (transpose it.1) (mat_zip Rminus predictions it.2);
  let W1 := mat_zip Rminus W0 (mat_map (λ g, lr * g)%R grad) in
  let loss := cross_entropy it.2 predictions (n - 1) in
  Some (StepOut W1 loss predictions it.1 it.2).

(** The body of [for sentence in sentences], with the state of the loop
    passed explicitly; the progress message is left out. *)
Definition loop_body (lr : R) (W_bigram : Matrix) (epoch : Z)
    (st : train_state) (raw : list Z) : option train_state :=
  out ← sgd_step lr (W st) raw;
  let n := length (padded raw) in
  bl ← (if decide (epoch = 0)%Z
        then bigram_predictions ← predict W_bigram (out_inputs out);
             Some (bigram_losses st ++
                   [cross_entropy (out_targets out) bigram_predictions (n - 1)])
        else Some (bigram_losses st));
  Some (TrainState (out_W out) (losses st ++ [out_loss out]) bl (j st + 1)%Z).
End Trainer.

(** ** [smoothed_loss] *)

(** The body of [for t in range(len(x))]; the state is [(y, last)].  Over
    the reals the quotient is exact; the program rounds every operation
    ([smoothed_body_f] and [smoothed_body_rnd] below). *)
Definition smoothed_body (decay : R) (x : list R) (st : list R * R) (t : nat)
  : option (list R * R) :=
  xt ← x !! t;
  let z := (decay * st.2 + (1 - decay) * xt)%R in
  Some (<[t := (z / (1 - decay ^ (t + 1)))%R]> st.1, z).

Definition smoothed_loss (x : list R) (decay : R) : option (list R) :=
  fst <$> for_each (smoothed_body decay x) (seq 0 (length x))
                   (replicate (length x) 0%R, 0%R).

(** The default of the keyword argument [decay]. *)
Definition decay_default : R := 0.99%R.

(** ** Views of the model used in the proofs *)

(** [shape r c M]: [M] is an array of [r] rows and [c] columns. *)
Definition shape (r c : nat) (M : Matrix) : Prop :=
  length M = r ∧ Forall (λ row : list R, length row = c) M.

#[global] Instance shape_dec r c M : Decision (shape r c M).
Proof. unfold shape. apply _. Defined.

(** [M[i, j]] for indices known to be in range. *)
Definition get (M : Matrix) (i j : nat) : R :=
  default 0%R (M !! i ≫= λ row : list R, row !! j).

(** The cell an index pair denotes in an array, if any. *)
Definition resolve (M : Matrix) (r c : Z) : option (nat * nat) :=
  i ← np_index (length M) r;
  row ← M !! i;
  j ← np_index (length row) c;
  Some (i, j).

Definition upd (f : R → R) (M : Matrix) (ij : nat * nat) : Matrix :=
  alter (alter f ij.2) ij.1 M.

(** A sequence of [M[r, c] += 1]. *)
Definition apply_incrs (ops : list (Z * Z)) (M : Matrix) : option Matrix :=
  for_each (λ M' rc, mat_incr M' rc.1 rc.2) ops M.

(** The increments one sentence causes, in the order of the loop: [prev] is
    the row of the first one. *)
Fixpoint transitions_from (end_idx prev : Z) (rest : list Z) : list (Z * Z) :=
  match rest with
  | [] => []
  | x :: rest' =>
      (prev, x) :: (if rest' is [] then [(x, end_idx)] else [])
                ++ transitions_from end_idx x rest'
  end.

(** How many increments of [ops] fall on cell [(i, j)]. *)
Fixpoint hits (ops : list (Z * Z)) (i j : nat) : nat :=
  match ops with
  | [] => 0
  | rc :: ops' =>
      (if decide (Z.to_nat rc.1 = i ∧ Z.to_nat rc.2 = j) then 1 else 0)
      + hits ops' i j
  end.

(** All the increments of a corpus. *)
Definition corpus_transitions (start_idx end_idx : Z)
    (sentences : list (list Z)) : list (Z * Z) :=
  sentences ≫= transitions_from end_idx start_idx.

(** A token id of the vocabulary [0, V). *)
Definition in_range (V : nat) (i : Z) : Prop := (0 ≤ i < Z.of_nat V)%Z.

#[global] Instance in_range_dec V i : Decision (in_range V i).
Proof. unfold in_range. apply _. Defined.

(** An ordinary token: a word id of the vocabulary that is neither of the
    two boundary markers. *)
Definition ordinary (V : nat) (start_idx end_idx t : Z) : Prop :=
  in_range V t ∧ t ≠ start_idx ∧ t ≠ end_idx.

#[global] Instance ordinary_dec V s e t : Decision (ordinary V s e t).
Proof. unfold ordinary. apply _. Defined.

Definition ops_in_range (V : nat) (ops : list (Z * Z)) : Prop :=
  Forall (λ rc : Z * Z, in_range V rc.1 ∧ in_range V rc.2) ops.

(** The totals of row [i] and of column [j]. *)
Definition row_sum (M : Matrix) (i : nat) : R := sum_R (default [] (M !! i)).
Definition col_sum (M : Matrix) (j : nat) : R := sum_R (column j M).

(** The softmax of a row without any shift. *)
Definition softmax_row_plain (row : list R) : list R :=
  (λ x, exp x / sum_R (exp <$> row))%R <$> row.

(** ** The rest of the script *)

(** The values the script gives to [epochs] and [lr], and the smoothing it
    passes to [get_bigram_probs]. *)
Definition epochs_script : nat := 1.
Definition lr_script : R := 0.1%R.
Definition smoothing_script : R := 0.1%R.

Section Training.
Variables (V : nat) (start_idx end_idx : Z).
(** [random.shuffle] reorders the list in place from the state of the random
    generator; the generator is a parameter of the model. *)
Context {rng : Type}.
Variable shuffle : rng → list (list Z) → list (list Z) * rng.

(** The body of [for epoch in range(epochs)]: the state is the state of the
    inner loop, the list of sentences and the random generator. *)
Definition run_epoch (lr : R) (W_bigram : Matrix)
    (s : train_state * list (list Z) * rng) (epoch : Z)
  : option (train_state * list (list Z) * rng) :=
  let shuffled := shuffle s.2 s.1.2 in
  let st0 := TrainState (W s.1.1) (losses s.1.1) (bigram_losses s.1.1) 0 in
  st ← for_each (loop_body V start_idx end_idx lr W_bigram epoch)
                shuffled.1 st0;
  Some (st, shuffled.1, shuffled.2).

(** The training loop of the script, from the initial weights [W0] and empty
    lists of losses ([j] is first set at the start of the first epoch). *)
Definition train (lr : R) (W_bigram : Matrix) (epochs : nat) (W0 : Matrix)
    (sentences : list (list Z)) (g : rng)
  : option (train_state * list (list Z) * rng) :=
  for_each (run_epoch lr W_bigram) (Z.of_nat <$> seq 0 epochs)
           (TrainState W0 [] [] 0, sentences, g).
End Training.

(** ** Further views used in the proofs *)

(** An index numpy accepts along an axis of length [n]. *)
Definition valid_index (n : nat) (i : Z) : Prop :=
  (- Z.of_nat n ≤ i < Z.of_nat n)%Z.

#[global] Instance valid_index_dec n i : Decision (valid_index n i).
Proof. unfold valid_index. apply _. Defined.

(** The index in [0, n) that numpy reads a valid index as. *)
Definition np_wrap (n : nat) (i : Z) : Z :=
  if decide (- Z.of_nat n ≤ i < 0)%Z then (i + Z.of_nat n)%Z else i.

(** How many increments of [ops] fall on row [i]. *)
Fixpoint row_hits (ops : list (Z * Z)) (i : nat) : nat :=
  match ops with
  | [] => 0
  | rc :: ops' => (if decide (Z.to_nat rc.1 = i) then 1 else 0) + row_hits ops' i
  end.

(** Weights of moderate size.  The logits of a step are rows of the weight
    matrix, so they differ by at most 600 and [exp(a - a.max())] is at least
    [exp(-600)], a normal float64: no prediction is 0 or nan. *)
Definition moderate_weights (W0 : Matrix) : Prop :=
  Forall (Forall (λ w, Rabs w <= 300)%R) W0.

(** The pairs [(p[k], p[k + 1])] of a sequence. *)
Definition adjacent_pairs (p : list Z) : list (Z * Z) :=
  zip (take (length p - 1) p) (drop 1 p).

(** A probability distribution with full support. *)
Definition stochastic (row : list R) : Prop :=
  sum_R row = 1%R ∧ Forall (λ p, 0 < p)%R row.

(** The probability each row of [predictions] gives to the token of [toks]
    at the same position. *)
Definition true_probs (toks : list Z) (predictions : Matrix) : list R :=
  zip_with (λ t (row : list R), default 0%R (row !! Z.to_nat t)) toks predictions.

(** Row [t] of an array, for a token. *)
Definition row_of (M : Matrix) (t : Z) : list R := default [] (M !! Z.to_nat t).

(** The value of [inputs.T.dot(D)] for [inputs] of [V] columns and [D] of [V]
    columns, with as many rows. *)
Definition gradient (V : nat) (inputs D : Matrix) : Matrix :=
  (λ i, (λ k, sum_R (zip_with Rmult (column i inputs) (column k D)))
          <$> seq 0 V) <$> seq 0 V.

(** ** [softmax] and [smoothed_loss] over float64 *)

Abbreviation FMatrix := (list (list float)).

(** The maximum of two floats as [np.max] takes it: nan if either is nan. *)
Definition np_maximum (x y : float) : float :=
  if PrimFloat.is_nan x then x
  else if PrimFloat.is_nan y then y
  else if (x <? y)%float then y else x.

Definition np_max_f (a : FMatrix) : option float :=
  match concat a with
  | [] => None
  | x :: xs => Some (foldl np_maximum x xs)
  end.

(** The sum of a row, added from left to right as numpy adds a row of fewer
    than eight elements. *)
Definition sum_f (l : list float) : float := foldl PrimFloat.add 0%float l.

Definition normalize_rows_f (M : FMatrix) : FMatrix :=
  (λ row : list float, (λ x, x / sum_f row)%float <$> row) <$> M.

(** Lines 69-72 with float64 arithmetic.  [np.exp] is the exponential of the
    C library, a parameter here. *)
Definition softmax_f (np_exp : float → float) (a : FMatrix) : option FMatrix :=
  m ← np_max_f a;
  let a' := (λ row : list float, (λ x, x - m)%float <$> row) <$> a in
  let exp_a := (λ row : list float, np_exp <$> row) <$> a' in
  Some (normalize_rows_f exp_a).

(** The softmax of the specification, row by row, with float64 arithmetic. *)
Definition row_max_f (row : list float) : float :=
  match row with
  | [] => 0%float
  | x :: xs => foldl np_maximum x xs
  end.

Definition softmax_row_stable_f (np_exp : float → float) (row : list float)
  : list float :=
  let e := (λ x, np_exp (x - row_max_f row)%float) <$> row in
  (λ y, y / sum_f e)%float <$> e.

Definition softmax_per_row_f (np_exp : float → float) (a : FMatrix) : FMatrix :=
  softmax_row_stable_f np_exp <$> a.

(** A step function that agrees with [np.exp] at 0.0 and wherever the
    exponential underflows to 0.0 (below -746). *)
Definition exp_coarse (x : float) : float :=
  if (x <? -746)%float then 0%float else 1%float.

(** [decay ** n] by repeated multiplication: the value of the C library's
    [pow] for the exponents 0 and 1; for larger exponents [pow] may differ
    in the last bits. *)
Fixpoint pow_f (d : float) (n : nat) : float :=
  match n with
  | 0 => 1%float
  | S n => (d * pow_f d n)%float
  end.

Definition smoothed_body_f (decay : float) (x : list float)
    (st : list float * float) (t : nat) : option (list float * float) :=
  xt ← x !! t;
  let z := (decay * st.2 + (1 - decay) * xt)%float in
  Some (<[t := (z / (1 - pow_f decay (t + 1)))%float]> st.1, z).

Definition smoothed_loss_f (x : list float) (decay : float)
  : option (list float) :=
  fst <$> for_each (smoothed_body_f decay x) (seq 0 (length x))
                   (replicate (length x) 0%float, 0%float).

(** ** [smoothed_loss] with rounded operations *)

(** Lines 124-131 over the reals, every arithmetic operation followed by the
    rounding [rnd] of its result to a float64. *)
Definition smoothed_body_rnd (rnd : R → R) (decay : R) (x : list R)
    (st : list R * R) (t : nat) : option (list R * R) :=
  xt ← x !! t;
  let z := rnd (rnd (decay * st.2) + rnd (rnd (1 - decay) * xt))%R in
  Some (<[t := rnd (z / rnd (1 - rnd (decay ^ (t + 1))))%R]> st.1, z).

Definition smoothed_loss_rnd (rnd : R → R) (x : list R) (decay : R)
  : option (list R) :=
  fst <$> for_each (smoothed_body_rnd rnd decay x) (seq 0 (length x))
                   (replicate (length x) 0%R, 0%R).

(** The standard model of floating-point arithmetic: a rounding of relative
    error at most [u].  Round-to-nearest in float64 has [u = 2^-53] as long
    as no result overflows or falls into the subnormal range. *)
Definition accurate (rnd : R → R) (u : R) : Prop :=
  ∀ v, (Rabs (rnd v - v) <= u * Rabs v)%R.

(** A rounding that is off by the factor 1 + 1/1024 everywhere but at one
    value, which it keeps. *)
Definition round_off (keep : R) (v : R) : R :=
  if Req_dec_T v keep then v else (v * (1 + 1 / 1024))%R.

(** * Properties *)

(** ** Loops and array updates *)

Lemma for_each_app {A S : Type} (body : S → A → option S) (xs ys : list A) st :
  for_each body (xs ++ ys) st = for_each body xs st ≫= for_each body ys.
Proof.
  revert st. induction xs as [|x xs IH]; intros st; simpl.
  - reflexivity.
  - destruct (body st x) as [st'|]; simpl; [apply IH | reflexivity].
Qed.

Lemma np_index_in_range n i :
  in_range n i → np_index n i = Some (Z.to_nat i).
Proof. intros H. unfold np_index. rewrite decide_True; done. Qed.

Lemma np_index_lt n i k : np_index n i = Some k → k < n.
Proof.
  unfold np_index. repeat case_decide; intros; simplify_eq; lia.
Qed.

Lemma mat_update_resolve f M r c :
  mat_update f M r c = upd f M <$> resolve M r c.
Proof.
  unfold mat_update, resolve, upd.
  destruct (np_index (length M) r) as [i|]; simpl; [|done].
  destruct (M !! i) as [row|] eqn:Hrow; simpl; [|done].
  destruct (np_index (length row) c) as [k|]; simpl; [|done].
  f_equal. apply list_eq. intros i'.
  rewrite list_lookup_alter. destruct (decide (i = i')) as [->|Hne].
  - rewrite list_lookup_insert_eq by (by eapply lookup_lt_Some).
    by rewrite Hrow.
  - by rewrite list_lookup_insert_ne.
Qed.

Lemma resolve_upd f M ij r c : resolve (upd f M ij) r c = resolve M r c.
Proof.
  unfold resolve, upd. rewrite length_alter.
  destruct (np_index (length M) r) as [i|]; simpl; [|done].
  rewrite list_lookup_alter. destruct (decide (ij.1 = i)) as [->|_]; [|done].
  destruct (M !! i) as [row|]; simpl; [|done].
  by rewrite length_alter.
Qed.

Lemma upd_comm f M a b : upd f (upd f M a) b = upd f (upd f M b) a.
Proof.
  unfold upd. destruct a as [i k], b as [i' k']; simpl.
  destruct (decide (i = i')) as [->|Hi].
  - rewrite !list_alter_alter_eq. apply list_alter_ext; [|done].
    intros row _. simpl. destruct (decide (k = k')) as [->|Hk]; [done|].
    by apply list_alter_alter_ne.
  - by apply list_alter_alter_ne.
Qed.

(** Two increments commute, also in whether they raise. *)
Lemma mat_incr_swap M r c r' c' :
  mat_incr M r c ≫= (λ M1, mat_incr M1 r' c')
  = mat_incr M r' c' ≫= (λ M1, mat_incr M1 r c).
Proof.
  unfold mat_incr. rewrite !mat_update_resolve.
  destruct (resolve M r c) as [a|] eqn:Ha;
    destruct (resolve M r' c') as [b|] eqn:Hb; simpl;
    rewrite ?mat_update_resolve, ?resolve_upd, ?Ha, ?Hb; simpl; try done.
  by rewrite upd_comm.
Qed.

Lemma apply_incrs_app ops ops' M :
  apply_incrs (ops ++ ops') M = apply_incrs ops M ≫= apply_incrs ops'.
Proof. apply for_each_app. Qed.

Lemma apply_incrs_perm ops ops' :
  Permutation ops ops' → ∀ M, apply_incrs ops M = apply_incrs ops' M.
Proof.
  induction 1 as [|rc l l' _ IH|rc rc' l|l l' l'' _ IH1 _ IH2]; intros M.
  - done.
  - unfold apply_incrs in *. simpl.
    destruct (mat_incr M rc.1 rc.2); simpl; [apply IH | done].
  - unfold apply_incrs. simpl.
    pose proof (mat_incr_swap M rc'.1 rc'.2 rc.1 rc.2) as Hsw.
    destruct (mat_incr M rc'.1 rc'.2) as [M1|],
             (mat_incr M rc.1 rc.2) as [M2|]; simpl in *;
      first [done | by rewrite Hsw | by rewrite <- Hsw].
  - by rewrite IH1.
Qed.

(** ** The counting loops as sequences of increments *)

Section EstimatorFacts.
Variables (V : nat) (start_idx end_idx : Z).

Lemma lookup_before_middle (pre l : list Z) :
  length pre ≠ 0 → (pre ++ l) !! (length pre - 1) = last pre.
Proof.
  intros Hne. rewrite lookup_app_l by lia.
  rewrite last_lookup. f_equal. lia.
Qed.

Lemma count_position_middle pre x rest M :
  count_position start_idx end_idx (pre ++ x :: rest) M (length pre)
  = apply_incrs ((default start_idx (last pre), x)
                 :: (if rest is [] then [(x, end_idx)] else [])) M.
Proof.
  unfold count_position, apply_incrs.
  rewrite (list_lookup_middle pre rest x (length pre)) by done. simpl.
  assert (Hprev : (if decide (length pre = 0) then mat_incr M start_idx x
                   else (pre ++ x :: rest) !! (length pre - 1)
                        ≫= λ prev, mat_incr M prev x)
                  = mat_incr M (default start_idx (last pre)) x).
  { case_decide as Hl.
    - destruct pre; simpl in *; [done | lia].
    - rewrite lookup_before_middle by done.
      destruct (last pre) eqn:E; [done|].
      apply last_None in E. by subst. }
  rewrite Hprev. clear Hprev.
  destruct (mat_incr M (default start_idx (last pre)) x) as [M1|]; simpl; [|done].
  rewrite length_app. simpl.
  destruct rest as [|y rest]; simpl.
  - rewrite decide_True by lia. by destruct (mat_incr M1 x end_idx).
  - by rewrite decide_False by lia.
Qed.

Lemma count_loop_transitions rest : ∀ pre M,
  for_each (count_position start_idx end_idx (pre ++ rest))
           (seq (length pre) (length rest)) M
  = apply_incrs (transitions_from end_idx (default start_idx (last pre)) rest) M.
Proof.
  induction rest as [|x rest IH]; intros pre M; [done|].
  change (seq (length pre) (length (x :: rest)))
    with (length pre :: seq (S (length pre)) (length rest)).
  cbn [for_each transitions_from].
  rewrite count_position_middle.
  change (?a :: ?l ++ ?l') with ((a :: l) ++ l').
  rewrite apply_incrs_app.
  destruct (apply_incrs _ M) as [M1|]; simpl; [|done].
  specialize (IH (pre ++ [x]) M1).
  rewrite <- app_assoc, length_app, last_snoc in IH. simpl in IH.
  rewrite Nat.add_1_r in IH. exact IH.
Qed.

(** On a sentence that is not empty the increments are the adjacent pairs
    of the padded sentence, the pairs the trainer turns into examples. *)
Lemma transitions_adjacent_pairs rest : ∀ prev,
  rest ≠ [] →
  transitions_from end_idx prev rest = zip (prev :: rest) (rest ++ [end_idx]).
Proof.
  induction rest as [|x rest IH]; intros prev Hne; [done|].
  destruct rest as [|y rest]; [done|].
  specialize (IH x ltac:(done)). simpl in *. f_equal. exact IH.
Qed.

Lemma count_sentence_transitions M sentence :
  count_sentence start_idx end_idx M sentence
  = apply_incrs (transitions_from end_idx start_idx sentence) M.
Proof. apply (count_loop_transitions sentence []). Qed.

Lemma count_sentences_transitions sentences : ∀ M,
  count_sentences start_idx end_idx sentences M
  = apply_incrs (corpus_transitions start_idx end_idx sentences) M.
Proof.
  unfold count_sentences, corpus_transitions.
  induction sentences as [|s ss IH]; intros M; [done|].
  cbn [for_each]. rewrite bind_cons, apply_incrs_app.
  rewrite count_sentence_transitions.
  destruct (apply_incrs _ M) as [M1|]; simpl; [apply IH | done].
Qed.

Lemma mat_incr_in_range r c M a b :
  shape r c M → in_range r a → in_range c b →
  ∃ M', mat_incr M a b = Some M' ∧ shape r c M' ∧
    ∀ i k, get M' i k
           = (get M i k
              + (if decide (Z.to_nat a = i ∧ Z.to_nat b = k) then 1 else 0))%R.
Proof.
  intros [Hlen Hrows] Ha Hb.
  assert (Hi : Z.to_nat a < length M) by (unfold in_range in Ha; lia).
  destruct (lookup_lt_is_Some_2 M _ Hi) as [row Hrow].
  assert (Hrl : length row = c)
    by exact (proj1 (Forall_lookup _ _) Hrows _ _ Hrow).
  assert (Hk : Z.to_nat b < length row) by (unfold in_range in Hb; lia).
  destruct (lookup_lt_is_Some_2 row _ Hk) as [x Hx].
  unfold mat_incr. rewrite mat_update_resolve. unfold resolve.
  rewrite np_index_in_range by (by rewrite Hlen). simpl.
  rewrite Hrow. simpl. rewrite np_index_in_range by (by rewrite Hrl). simpl.
  eexists. split; [done|]. unfold upd. simpl. split.
  - split; [by rewrite length_alter|].
    apply Forall_lookup. intros i row' Hi'.
    rewrite list_lookup_alter in Hi'. case_decide; subst.
    + rewrite Hrow in Hi'. simpl in Hi'. simplify_eq.
      by rewrite length_alter.
    + by eapply (proj1 (Forall_lookup _ _) Hrows).
  - intros i k. unfold get. rewrite list_lookup_alter.
    destruct (decide (Z.to_nat a = i)) as [<-|Hne].
    + rewrite Hrow. simpl. rewrite list_lookup_alter.
      destruct (decide (Z.to_nat b = k)) as [<-|Hne'].
      * rewrite Hx. simpl. rewrite decide_True by done. done.
      * rewrite decide_False by tauto. lra.
    + rewrite decide_False by tauto. lra.
Qed.

Lemma apply_incrs_in_range ops : ∀ M,
  ops_in_range V ops → shape V V M →
  ∃ M', apply_incrs ops M = Some M' ∧ shape V V M' ∧
    ∀ i k, get M' i k = (get M i k + INR (hits ops i k))%R.
Proof.
  induction ops as [|rc ops IH]; intros M Hops HM.
  - exists M. repeat split; try apply HM. intros. simpl. lra.
  - apply Forall_cons in Hops as [[Hr Hc] Hops].
    destruct (mat_incr_in_range V V M rc.1 rc.2 HM Hr Hc)
      as (M1 & HM1 & Hsh1 & Hget1).
    destruct (IH M1 Hops Hsh1) as (M' & HM' & Hsh' & Hget').
    exists M'. unfold apply_incrs in *. simpl. rewrite HM1. simpl.
    repeat split; try apply Hsh'; [done|].
    intros i k. rewrite Hget', Hget1, plus_INR.
    case_decide; simpl; lra.
Qed.

Lemma transitions_Forall (P Q : Z → Prop) rest : ∀ prev,
  P prev → Forall P rest → Forall Q rest → Q end_idx →
  Forall (λ rc : Z * Z, P rc.1 ∧ Q rc.2) (transitions_from end_idx prev rest).
Proof.
  induction rest as [|x rest IH]; intros prev Hp HP HQ He; simpl; [done|].
  apply Forall_cons in HP as [Hx HP]. apply Forall_cons in HQ as [Hy HQ].
  apply Forall_cons. split; [done|]. apply Forall_app. split.
  - destruct rest; [|done]. by apply Forall_singleton.
  - by apply IH.
Qed.

Lemma corpus_transitions_Forall (P Q : Z → Prop) sentences :
  P start_idx → Q end_idx →
  Forall (Forall (λ t, P t ∧ Q t)) sentences →
  Forall (λ rc : Z * Z, P rc.1 ∧ Q rc.2)
         (corpus_transitions start_idx end_idx sentences).
Proof.
  intros Hs He Hall. unfold corpus_transitions. apply Forall_bind.
  eapply Forall_impl; [exact Hall|]. intros s Hs'. simpl.
  apply transitions_Forall; try done.
  - eapply Forall_impl; [exact Hs'|]. by intros ? [??].
  - eapply Forall_impl; [exact Hs'|]. by intros ? [??].
Qed.
End EstimatorFacts.

(** ** Sums, rows and normalisation *)

Lemma shape_np_full r c v : shape r c (np_full r c v).
Proof.
  split; [apply length_replicate|].
  apply Forall_replicate, length_replicate.
Qed.

Lemma get_np_full r c v i k :
  i < r → k < c → get (np_full r c v) i k = (1 * v)%R.
Proof.
  intros Hi Hk. unfold get, np_full.
  rewrite lookup_replicate_2 by done. simpl.
  by rewrite lookup_replicate_2.
Qed.

Lemma get_lookup (M : Matrix) i k (row : list R) x :
  M !! i = Some row → row !! k = Some x → get M i k = x.
Proof. intros Hi Hk. unfold get. rewrite Hi. simpl. by rewrite Hk. Qed.

Lemma shape_lookup r c (M : Matrix) i (row : list R) :
  shape r c M → M !! i = Some row → i < r ∧ length row = c.
Proof.
  intros [Hl Hr] Hi. split.
  - rewrite <- Hl. by eapply lookup_lt_Some.
  - exact (proj1 (Forall_lookup _ _) Hr _ _ Hi).
Qed.

Lemma sum_R_cons (x : R) (l : list R) : sum_R (x :: l) = (x + sum_R l)%R.
Proof. reflexivity. Qed.

Lemma sum_R_app (l l' : list R) : sum_R (l ++ l') = (sum_R l + sum_R l')%R.
Proof.
  induction l as [|x l IH]; [unfold sum_R; simpl; lra|].
  rewrite <- app_comm_cons, !sum_R_cons, IH. lra.
Qed.

Lemma sum_R_div (l : list R) (s : R) :
  sum_R ((λ x, x / s)%R <$> l) = (sum_R l / s)%R.
Proof.
  induction l as [|x l IH].
  - unfold sum_R, Rdiv. simpl. lra.
  - rewrite fmap_cons, !sum_R_cons, IH. unfold Rdiv. lra.
Qed.

Lemma sum_R_pos (l : list R) :
  l ≠ [] → Forall (λ x, 0 < x)%R l → (0 < sum_R l)%R.
Proof.
  induction l as [|x l IH]; intros Hne Hall; [done|].
  apply Forall_cons in Hall as [Hx Hall]. rewrite sum_R_cons.
  destruct l as [|y l]; [unfold sum_R; simpl; lra|].
  assert (0 < sum_R (y :: l))%R by (by apply IH). lra.
Qed.

Lemma sum_R_replicate n (x : R) : sum_R (replicate n x) = (INR n * x)%R.
Proof.
  induction n as [|n IH]; [unfold sum_R; simpl; lra|].
  rewrite S_INR. cbn [replicate]. rewrite sum_R_cons, IH. lra.
Qed.

Lemma row_constant (row : list R) n (c : R) :
  length row = n → (∀ k x, row !! k = Some x → x = c) → row = replicate n c.
Proof.
  intros Hl Hc. apply list_eq. intros k.
  destruct (row !! k) as [x|] eqn:Hk.
  - rewrite (Hc _ _ Hk). symmetry. apply lookup_replicate_2.
    rewrite <- Hl. by eapply lookup_lt_Some.
  - symmetry. apply lookup_replicate_None.
    rewrite <- Hl. by apply lookup_ge_None.
Qed.

(** A row of positive entries is normalised to a probability distribution. *)
Lemma normalized_row_stochastic (row : list R) :
  row ≠ [] → Forall (λ x, 0 < x)%R row →
  sum_R ((λ x, x / sum_R row)%R <$> row) = 1%R ∧
  Forall (λ p, 0 < p)%R ((λ x, x / sum_R row)%R <$> row).
Proof.
  intros Hne Hpos. pose proof (sum_R_pos row Hne Hpos) as Hs. split.
  - rewrite sum_R_div. field. lra.
  - apply Forall_fmap. eapply Forall_impl; [exact Hpos|].
    intros x Hx. simpl. by apply Rdiv_lt_0_compat.
Qed.

Lemma shape_normalize_rows r c M : shape r c M → shape r c (normalize_rows M).
Proof.
  intros [Hl Hr]. unfold normalize_rows. split; [by rewrite length_fmap|].
  apply Forall_fmap. eapply Forall_impl; [exact Hr|].
  intros row Hrow. simpl. by rewrite length_fmap.
Qed.

Lemma hits_row_none ops i k :
  Forall (λ rc : Z * Z, Z.to_nat rc.1 ≠ i) ops → hits ops i k = 0.
Proof.
  induction 1 as [|rc ops Hrc _ IH]; simpl; [done|].
  rewrite decide_False by tauto. by rewrite IH.
Qed.

(** ** The estimator on a well-formed corpus *)

Section EstimatorTheorems.
Variables (V : nat) (start_idx end_idx : Z).
Hypothesis Hstart : in_range V start_idx.
Hypothesis Hend : in_range V end_idx.

Lemma counts_in_range sentences smoothing :
  Forall (Forall (in_range V)) sentences →
  ∃ M, count_sentences start_idx end_idx sentences (np_full V V smoothing)
       = Some M ∧ shape V V M ∧
    ∀ i k, i < V → k < V →
      get M i k
      = (1 * smoothing
         + INR (hits (corpus_transitions start_idx end_idx sentences) i k))%R.
Proof.
  intros Hall.
  assert (Hops : ops_in_range V (corpus_transitions start_idx end_idx sentences)).
  { apply corpus_transitions_Forall; try done.
    eapply Forall_impl; [exact Hall|]. intros s Hs.
    eapply Forall_impl; [exact Hs|]. by intros t Ht. }
  destruct (apply_incrs_in_range V _ (np_full V V smoothing) Hops
              (shape_np_full V V smoothing)) as (M & HM & Hsh & Hget).
  exists M. rewrite count_sentences_transitions. repeat split; try apply Hsh; [done|].
  intros i k Hi Hk. by rewrite Hget, get_np_full.
Qed.

Lemma get_bigram_probs_returns sentences smoothing :
  Forall (Forall (in_range V)) sentences →
  ∃ P, get_bigram_probs V start_idx end_idx sentences smoothing = Some P
       ∧ shape V V P.
Proof.
  intros Hall.
  destruct (counts_in_range sentences smoothing Hall) as (M & HM & Hsh & _).
  exists (normalize_rows M). unfold get_bigram_probs. rewrite HM. simpl.
  split; [done|]. by apply shape_normalize_rows.
Qed.

(** C1. For a corpus over [0, V), boundary ids in [0, V) and
    [smoothing > 0], [get_bigram_probs] returns a V×V table in which every
    row sums to 1 and every entry is strictly positive. *)
Theorem bigram_rows_stochastic sentences smoothing :
  (0 < smoothing)%R →
  Forall (Forall (in_range V)) sentences →
  ∃ P, get_bigram_probs V start_idx end_idx sentences smoothing = Some P
       ∧ shape V V P
       ∧ Forall (λ row, sum_R row = 1%R ∧ Forall (λ p, 0 < p)%R row) P.
Proof.
  intros Hs Hall.
  destruct (counts_in_range sentences smoothing Hall) as (M & HM & Hsh & Hget).
  exists (normalize_rows M). unfold get_bigram_probs. rewrite HM. simpl.
  split; [done|]. split; [by apply shape_normalize_rows|].
  unfold normalize_rows. apply Forall_fmap, Forall_lookup.
  intros i row Hrow. simpl.
  destruct (shape_lookup _ _ _ _ _ Hsh Hrow) as [Hi Hlen].
  apply normalized_row_stochastic.
  - intros ->. simpl in Hlen. lia.
  - apply Forall_lookup. intros k x Hk.
    assert (k < V) by (rewrite <- Hlen; by eapply lookup_lt_Some).
    rewrite <- (get_lookup _ _ _ _ _ Hrow Hk), Hget by done.
    pose proof (pos_INR (hits (corpus_transitions start_idx end_idx sentences) i k)).
    lra.
Qed.

(** C10. When no sentence contains [end_idx] as a token (and the two
    boundary ids differ), row [end_idx] of the returned table is the uniform
    distribution: every entry is 1/V. *)
Theorem end_row_uniform sentences smoothing :
  (0 < smoothing)%R →
  start_idx ≠ end_idx →
  Forall (Forall (λ t, in_range V t ∧ t ≠ end_idx)) sentences →
  ∃ P, get_bigram_probs V start_idx end_idx sentences smoothing = Some P
       ∧ P !! Z.to_nat end_idx = Some (replicate V (1 / INR V)%R).
Proof.
  intros Hs Hne Hall.
  assert (Hall' : Forall (Forall (in_range V)) sentences).
  { eapply Forall_impl; [exact Hall|]. intros s Hs'.
    eapply Forall_impl; [exact Hs'|]. by intros t [??]. }
  destruct (counts_in_range sentences smoothing Hall') as (M & HM & Hsh & Hget).
  exists (normalize_rows M). unfold get_bigram_probs. rewrite HM. simpl.
  split; [done|].
  assert (HV : Z.to_nat end_idx < V) by (unfold in_range in Hend; lia).
  assert (Hhits : ∀ k, hits (corpus_transitions start_idx end_idx sentences)
                            (Z.to_nat end_idx) k = 0).
  { intros k. apply hits_row_none.
    eapply Forall_impl.
    - apply (corpus_transitions_Forall start_idx end_idx
               (λ t, in_range V t ∧ t ≠ end_idx) (λ _, True)); [done|done|].
      eapply Forall_impl; [exact Hall|]. intros s Hs'.
      eapply Forall_impl; [exact Hs'|]. by intros t Ht.
    - intros rc [[Hr Hd] _]. simpl. unfold in_range in Hr, Hend. lia. }
  destruct (lookup_lt_is_Some_2 M (Z.to_nat end_idx)) as [row Hrow];
    [by rewrite (proj1 Hsh)|].
  destruct (shape_lookup _ _ _ _ _ Hsh Hrow) as [_ Hlen].
  assert (Hconst : row = replicate V (1 * smoothing)%R).
  { apply row_constant; [done|]. intros k x Hk.
    assert (k < V) by (rewrite <- Hlen; by eapply lookup_lt_Some).
    rewrite <- (get_lookup _ _ _ _ _ Hrow Hk), Hget, Hhits by done.
    simpl. lra. }
  unfold normalize_rows. rewrite list_lookup_fmap, Hrow. simpl. f_equal.
  rewrite Hconst, fmap_replicate, sum_R_replicate. f_equal.
  assert (INR V ≠ 0)%R by (apply not_0_INR; lia).
  field. split; lra.
Qed.

(** C3 (as amended). The estimator does not inspect [smoothing]: for a
    corpus over [0, V) it returns a V×V table for every real [smoothing],
    in particular for [smoothing ≤ 0]. *)
Theorem nonpositive_smoothing_accepted sentences smoothing :
  (smoothing <= 0)%R →
  Forall (Forall (in_range V)) sentences →
  ∃ P, get_bigram_probs V start_idx end_idx sentences smoothing = Some P
       ∧ shape V V P.
Proof. intros _. apply get_bigram_probs_returns. Qed.
End EstimatorTheorems.

(** C8. [get_bigram_probs] does not depend on the order of the sentences:
    two orderings of one multiset of sentences give the same result (the
    same table, or an exception in both cases). *)
Theorem get_bigram_probs_permutation V start_idx end_idx smoothing
    (sentences sentences' : list (list Z)) :
  Permutation sentences sentences' →
  get_bigram_probs V start_idx end_idx sentences smoothing
  = get_bigram_probs V start_idx end_idx sentences' smoothing.
Proof.
  intros Hp. unfold get_bigram_probs.
  rewrite !count_sentences_transitions.
  rewrite (apply_incrs_perm (corpus_transitions start_idx end_idx sentences)
             (corpus_transitions start_idx end_idx sentences')); [done|].
  unfold corpus_transitions. by rewrite Hp.
Qed.

(** ** The contribution of one sentence *)

Lemma hits_app ops ops' i k : hits (ops ++ ops') i k = hits ops i k + hits ops' i k.
Proof. induction ops as [|rc ops IH]; simpl; [done|]. rewrite IH. lia. Qed.

Lemma sum_R_pointwise (l : list R) : ∀ (l' : list R) (d : nat → R),
  length l' = length l →
  (∀ k, k < length l →
     default 0%R (l' !! k) = (default 0%R (l !! k) + d k)%R) →
  sum_R l' = (sum_R l + sum_R (d <$> seq 0 (length l)))%R.
Proof.
  induction l as [|x l IH]; intros l' d Hlen Hd.
  - destruct l'; [|done]. unfold sum_R. simpl. lra.
  - destruct l' as [|x' l']; [done|]. simpl in Hlen.
    cbn [length seq]. rewrite fmap_cons, !sum_R_cons.
    rewrite <- fmap_S_seq, <- list_fmap_compose.
    rewrite (IH l' (d ∘ S)).
    + specialize (Hd 0 ltac:(simpl; lia)). simpl in Hd. lra.
    + lia.
    + intros k Hk. apply (Hd (S k)). simpl. lia.
Qed.

Lemma sum_R_indicator a n : ∀ s,
  sum_R ((λ k, if decide (k = a) then 1%R else 0%R) <$> seq s n)
  = if decide (s ≤ a < s + n) then 1%R else 0%R.
Proof.
  induction n as [|n IH]; intros s.
  - rewrite decide_False by lia. done.
  - cbn [seq]. rewrite fmap_cons, sum_R_cons, IH.
    repeat case_decide; try lia; lra.
Qed.

Lemma sum_R_bump (l l' : list R) a :
  length l' = length l → a < length l →
  (∀ k, k < length l →
     default 0%R (l' !! k)
     = (default 0%R (l !! k) + (if decide (k = a) then 1 else 0))%R) →
  sum_R l' = (sum_R l + 1)%R.
Proof.
  intros Hlen Ha Hd.
  rewrite (sum_R_pointwise l l' _ Hlen Hd), sum_R_indicator.
  by rewrite decide_True by lia.
Qed.

Lemma row_sum_bump r c M M' i a :
  shape r c M → shape r c M' → i < r → a < c →
  (∀ k, k < c →
     get M' i k = (get M i k + (if decide (k = a) then 1 else 0))%R) →
  row_sum M' i = (row_sum M i + 1)%R.
Proof.
  intros HM HM' Hi Ha Hget. unfold row_sum.
  destruct (lookup_lt_is_Some_2 M i) as [row Hrow]; [by rewrite (proj1 HM)|].
  destruct (lookup_lt_is_Some_2 M' i) as [row' Hrow']; [by rewrite (proj1 HM')|].
  destruct (shape_lookup _ _ _ _ _ HM Hrow) as [_ Hl].
  destruct (shape_lookup _ _ _ _ _ HM' Hrow') as [_ Hl'].
  rewrite Hrow, Hrow'. simpl. apply (sum_R_bump row row' a); [lia|lia|].
  intros k Hk. specialize (Hget k ltac:(lia)).
  unfold get in Hget. by rewrite Hrow, Hrow' in Hget.
Qed.

Lemma column_lookup (M : Matrix) j i :
  i < length M → default 0%R (column j M !! i) = get M i j.
Proof.
  intros Hi. unfold column, get. rewrite list_lookup_fmap.
  destruct (lookup_lt_is_Some_2 M i Hi) as [row Hrow].
  by rewrite Hrow.
Qed.

Lemma col_sum_bump r c M M' j b :
  shape r c M → shape r c M' → b < r →
  (∀ i, i < r →
     get M' i j = (get M i j + (if decide (i = b) then 1 else 0))%R) →
  col_sum M' j = (col_sum M j + 1)%R.
Proof.
  intros [HM _] [HM' _] Hb Hget. unfold col_sum.
  apply (sum_R_bump (column j M) (column j M') b).
  - unfold column. rewrite !length_fmap. lia.
  - unfold column. rewrite length_fmap. lia.
  - intros i Hi. unfold column in Hi. rewrite length_fmap in Hi.
    rewrite !column_lookup by lia. apply Hget. lia.
Qed.

Section SentenceContribution.
Variables (V : nat) (start_idx end_idx : Z).
Hypothesis Hstart : in_range V start_idx.
Hypothesis Hend : in_range V end_idx.

Lemma hits_transitions_start_row rest : ∀ prev k,
  in_range V prev →
  Forall (ordinary V start_idx end_idx) rest →
  hits (transitions_from end_idx prev rest) (Z.to_nat start_idx) k
  = match rest with
    | [] => 0
    | x :: _ => if decide (prev = start_idx ∧ Z.to_nat x = k) then 1 else 0
    end.
Proof.
  induction rest as [|x rest IH]; intros prev k Hp Hall; [done|].
  apply Forall_cons in Hall as [(Hx & Hxs & Hxe) Hall].
  cbn [transitions_from hits]. rewrite hits_app, (IH x k Hx Hall).
  assert (Hxn : Z.to_nat x ≠ Z.to_nat start_idx)
    by (unfold in_range in *; lia).
  assert (H1 : hits (if rest is [] then [(x, end_idx)] else [])
                 (Z.to_nat start_idx) k = 0).
  { destruct rest; simpl; [|done]. by rewrite decide_False by tauto. }
  assert (H2 : match rest with
               | [] => 0
               | y :: _ => if decide (x = start_idx ∧ Z.to_nat y = k)
                           then 1 else 0
               end = 0).
  { destruct rest; [done|]. by rewrite decide_False by tauto. }
  rewrite H1, H2. simpl.
  destruct (decide (prev = start_idx ∧ Z.to_nat x = k)) as [[-> <-]|Hn].
  - by rewrite decide_True.
  - rewrite decide_False; [done|]. intros [Heq ?]. apply Hn. split; [|done].
    unfold in_range in *. lia.
Qed.

Lemma hits_transitions_end_col rest : ∀ prev i,
  Forall (ordinary V start_idx end_idx) rest →
  hits (transitions_from end_idx prev rest) i (Z.to_nat end_idx)
  = match last rest with
    | None => 0
    | Some b => if decide (Z.to_nat b = i) then 1 else 0
    end.
Proof.
  induction rest as [|x rest IH]; intros prev i Hall; [done|].
  apply Forall_cons in Hall as [(Hx & Hxs & Hxe) Hall].
  cbn [transitions_from hits]. rewrite hits_app, (IH x i Hall).
  assert (Hxn : Z.to_nat x ≠ Z.to_nat end_idx)
    by (unfold in_range in *; lia).
  rewrite (decide_False (P := _ ∧ Z.to_nat (prev, x).2 = _)) by (simpl; tauto).
  destruct rest as [|y rest]; simpl.
  - case_decide as Hd; case_decide as Hd'; try done; tauto.
  - done.
Qed.

(** The boundary counts of a sentence.  A sentence of length at least 1 made
    of ordinary tokens adds exactly one count to row [start_idx], in the
    column of its first token, and exactly one count to column [end_idx], in
    the row of its last token.  The loop is not entered for a sentence of
    length 0, which leaves the table as it is. *)
Theorem sentence_boundary_counts M :
  count_sentence start_idx end_idx M [] = Some M ∧
  ∀ sentence a b,
    shape V V M →
    Forall (ordinary V start_idx end_idx) sentence →
    head sentence = Some a → last sentence = Some b →
    ∃ M', count_sentence start_idx end_idx M sentence = Some M'
      ∧ (∀ k, k < V →
           get M' (Z.to_nat start_idx) k
           = (get M (Z.to_nat start_idx) k
              + (if decide (k = Z.to_nat a) then 1 else 0))%R)
      ∧ (∀ i, i < V →
           get M' i (Z.to_nat end_idx)
           = (get M i (Z.to_nat end_idx)
              + (if decide (i = Z.to_nat b) then 1 else 0))%R)
      ∧ row_sum M' (Z.to_nat start_idx)
        = (row_sum M (Z.to_nat start_idx) + 1)%R
      ∧ col_sum M' (Z.to_nat end_idx)
        = (col_sum M (Z.to_nat end_idx) + 1)%R.
Proof.
  split; [done|]. intros sentence a b HM Hall Ha Hb.
  assert (Hops : ops_in_range V (transitions_from end_idx start_idx sentence)).
  { apply transitions_Forall; try done.
    - eapply Forall_impl; [exact Hall|]. by intros t [??].
    - eapply Forall_impl; [exact Hall|]. by intros t [??]. }
  destruct (apply_incrs_in_range V _ M Hops HM) as (M' & HM' & Hsh & Hget).
  assert (Hain : in_range V a).
  { destruct sentence; simplify_eq/=. by apply Forall_cons in Hall as [[??] _]. }
  assert (Hbin : in_range V b).
  { apply last_Some in Hb as [l ->]. by apply Forall_app in Hall as [_ [[??] _]%Forall_singleton]. }
  assert (Hrow : ∀ k, k < V →
           get M' (Z.to_nat start_idx) k
           = (get M (Z.to_nat start_idx) k
              + (if decide (k = Z.to_nat a) then 1 else 0))%R).
  { intros k Hk. rewrite Hget, hits_transitions_start_row by done.
    destruct sentence as [|x rest]; simplify_eq/=.
    destruct (decide (k = Z.to_nat a)) as [->|Hn].
    - rewrite decide_True by done. simpl. lra.
    - rewrite decide_False by (intros [_ ?]; by apply Hn). simpl. lra. }
  assert (Hcol : ∀ i, i < V →
           get M' i (Z.to_nat end_idx)
           = (get M i (Z.to_nat end_idx)
              + (if decide (i = Z.to_nat b) then 1 else 0))%R).
  { intros i Hi. rewrite Hget, hits_transitions_end_col, Hb by done.
    destruct (decide (i = Z.to_nat b)) as [->|Hn].
    - rewrite decide_True by done. simpl. lra.
    - rewrite decide_False by (intros ?; by apply Hn). simpl. lra. }
  exists M'. rewrite count_sentence_transitions.
  split; [done|]. split; [done|]. split; [done|]. split.
  - apply (row_sum_bump V V M M' _ (Z.to_nat a)); try done;
      unfold in_range in *; lia.
  - apply (col_sum_bump V V M M' _ (Z.to_nat b)); try done;
      unfold in_range in *; lia.
Qed.
End SentenceContribution.

(** ** The estimator on concrete corpora *)

Ltac eval_arrays :=
  cbv -[Rplus Rmult Rminus Rdiv Rinv Ropp IZR exp ln Rmax INR pow Rlt Rle].

Ltac solve_rows :=
  lazymatch goal with
  | |- @eq R _ _ => first [lra | field; lra]
  | |- _ :: _ = _ :: _ => apply (f_equal2 cons); solve_rows
  | |- _ => reflexivity
  end.

Ltac solve_in_range := unfold in_range; simpl; lia.

(** The vocabulary {START = 0, END = 1, the = 2, cat = 3} and the corpus of
    the single sentence "the cat": the counts before normalisation. *)
Example counts_the_cat :
  count_sentences 0 1 [[2; 3]]%Z (np_full 4 4 1)
  = Some [[1; 1; 2; 1]; [1; 1; 1; 1]; [1; 1; 1; 2]; [1; 2; 1; 1]]%R.
Proof. eval_arrays. f_equal. solve_rows. Qed.

Example probs_the_cat :
  get_bigram_probs 4 0 1 [[2; 3]]%Z 1
  = Some [[1/5; 1/5; 2/5; 1/5]; [1/4; 1/4; 1/4; 1/4];
          [1/5; 1/5; 1/5; 2/5]; [1/5; 2/5; 1/5; 1/5]]%R.
Proof. eval_arrays. f_equal. solve_rows. Qed.

(** An index from the end is accepted, one beyond the table raises. *)
Example counts_negative_token :
  count_sentences 0 1 [[-1]]%Z (np_full 2 2 1) = Some [[1; 2]; [1; 2]]%R.
Proof. eval_arrays. f_equal. solve_rows. Qed.

Example counts_token_out_of_range :
  get_bigram_probs 4 0 1 [[7]]%Z 1 = None.
Proof. reflexivity. Qed.

Lemma bigram_rows_stochastic_witness :
  ∃ P, get_bigram_probs 4 0 1 [[2; 3]]%Z 1 = Some P
       ∧ shape 4 4 P
       ∧ Forall (λ row, sum_R row = 1%R ∧ Forall (λ p, 0 < p)%R row) P.
Proof.
  apply (bigram_rows_stochastic 4 0 1).
  - solve_in_range.
  - solve_in_range.
  - lra.
  - repeat constructor; solve_in_range.
Defined.

Lemma end_row_uniform_witness :
  ∃ P, get_bigram_probs 4 0 1 [[2; 3]]%Z 1 = Some P
       ∧ P !! Z.to_nat 1 = Some (replicate 4 (1 / INR 4)%R).
Proof.
  apply (end_row_uniform 4 0 1).
  - solve_in_range.
  - solve_in_range.
  - lra.
  - discriminate.
  - repeat constructor; solve_in_range.
Defined.

Lemma nonpositive_smoothing_accepted_witness :
  ∃ P, get_bigram_probs 4 0 1 [[2; 3]]%Z (-1) = Some P ∧ shape 4 4 P.
Proof.
  apply (nonpositive_smoothing_accepted 4 0 1).
  - solve_in_range.
  - solve_in_range.
  - lra.
  - repeat constructor; solve_in_range.
Defined.

(** C3, as stated, fails: with [smoothing = -1] and an empty corpus the
    estimator returns the uniform 2×2 table. *)
Lemma negative_smoothing_returns_table :
  (-1 <= 0)%R ∧
  get_bigram_probs 2 0 1 [] (-1) = Some [[1/2; 1/2]; [1/2; 1/2]]%R.
Proof. split; [lra|]. eval_arrays. f_equal. solve_rows. Qed.

Lemma get_bigram_probs_permutation_witness :
  get_bigram_probs 4 0 1 [[2; 3]; [3]]%Z 1
  = get_bigram_probs 4 0 1 [[3]; [2; 3]]%Z 1.
Proof. apply get_bigram_probs_permutation. apply perm_swap. Defined.

(** C2. The estimator misses the sentence of length 0: the loop body is never
    entered, the table is returned as it was, and neither the total of row
    [start_idx] nor the total of column [end_idx] grows by one; a corpus with
    an empty sentence gives the table of the corpus without it.  The trainer
    pads the same sentence to [[start_idx; end_idx]] and learns from the one
    transition START -> END that the estimator does not count. *)
Lemma empty_sentence_adds_no_count :
  count_sentence 0 1 (np_full 4 4 1) [] = Some (np_full 4 4 1)
  ∧ row_sum (np_full 4 4 1) 0 ≠ (row_sum (np_full 4 4 1) 0 + 1)%R
  ∧ col_sum (np_full 4 4 1) 1 ≠ (col_sum (np_full 4 4 1) 1 + 1)%R
  ∧ get_bigram_probs 4 0 1 [[]; [2; 3]]%Z 1
    = get_bigram_probs 4 0 1 [[2; 3]]%Z 1
  ∧ make_examples 4 0 1 [] = Some ([one_hot 4 0], [one_hot 4 1]).
Proof. repeat split; try reflexivity; lra. Qed.

Lemma sentence_boundary_counts_witness :
  ∃ M', count_sentence 0 1 (np_full 4 4 1) [2; 3]%Z = Some M'
    ∧ row_sum M' 0 = (row_sum (np_full 4 4 1) 0 + 1)%R
    ∧ col_sum M' 1 = (col_sum (np_full 4 4 1) 1 + 1)%R.
Proof.
  assert (H0 : in_range 4 0) by (solve_in_range).
  assert (H1 : in_range 4 1) by (solve_in_range).
  destruct (sentence_boundary_counts 4 0 1 H0 H1 (np_full 4 4 1)) as [_ H].
  destruct (H [2; 3]%Z 2%Z 3%Z) as (M' & HM' & _ & _ & Hr & Hc).
  - apply shape_np_full.
  - repeat constructor; try discriminate.
  - reflexivity.
  - reflexivity.
  - exists M'. auto.
Defined.

(** ** [smoothed_loss] *)

Lemma smoothed_body_at decay (x : list R) (y : list R) last t xt :
  x !! t = Some xt →
  smoothed_body decay x (y, last) t
  = Some (<[t := ((decay * last + (1 - decay) * xt)
                  / (1 - decay ^ (t + 1)))%R]> y,
          (decay * last + (1 - decay) * xt)%R).
Proof. intros Hx. unfold smoothed_body. by rewrite Hx. Qed.

Lemma smoothed_loop decay (x : list R) n : ∀ s (y : list R) last,
  s + n ≤ length x →
  ∃ y' last',
    for_each (smoothed_body decay x) (seq s n) (y, last) = Some (y', last')
    ∧ length y' = length y
    ∧ ∀ k, k < s → y' !! k = y !! k.
Proof.
  induction n as [|n IH]; intros s y last Hs.
  - by exists y, last.
  - cbn [seq for_each].
    destruct (lookup_lt_is_Some_2 x s) as [xt Hxt]; [lia|].
    rewrite (smoothed_body_at _ _ _ _ _ _ Hxt). cbn [mbind option_bind].
    set (z := (decay * last + (1 - decay) * xt)%R).
    destruct (IH (S s) (<[s := (z / (1 - decay ^ (s + 1)))%R]> y) z)
      as (y' & last' & Hrun & Hlen & Hkeep); [lia|].
    exists y', last'. split; [exact Hrun|]. split.
    + by rewrite Hlen, length_insert.
    + intros k Hk. rewrite Hkeep by lia.
      apply list_lookup_insert_ne. lia.
Qed.

(** In exact arithmetic, for a decay in [0, 1) and a non-empty series [x],
    the bias correction cancels at the first element: [smoothed_loss] over
    the reals returns a series of the same length whose first element is
    [x[0]]. *)
Theorem smoothed_loss_first decay (x0 : R) (xs : list R) :
  (0 <= decay < 1)%R →
  ∃ y, smoothed_loss (x0 :: xs) decay = Some y
       ∧ length y = length (x0 :: xs)
       ∧ y !! 0 = Some x0.
Proof.
  intros Hd. unfold smoothed_loss. cbn [length seq for_each].
  rewrite (smoothed_body_at _ _ _ _ 0 x0) by done. cbn [mbind option_bind].
  set (z := (decay * 0 + (1 - decay) * x0)%R).
  destruct (smoothed_loop decay (x0 :: xs) (length xs) 1
              (<[0 := (z / (1 - decay ^ (0 + 1)))%R]>
                 (replicate (S (length xs)) 0%R)) z)
    as (y & last & Hrun & Hlen & Hkeep); [simpl; lia|].
  exists y. rewrite Hrun. split; [done|]. split.
  - rewrite Hlen, length_insert, length_replicate. done.
  - rewrite Hkeep by lia. simpl. f_equal. unfold z. field. lra.
Qed.

Lemma smoothed_loss_first_witness :
  ∃ y, smoothed_loss [2; 3]%R decay_default = Some y
       ∧ length y = length [2; 3]%R
       ∧ y !! 0 = Some 2%R.
Proof. apply smoothed_loss_first. unfold decay_default. lra. Defined.

Example smoothed_loss_half :
  smoothed_loss [2; 3]%R (1/2) = Some [2; 8/3]%R.
Proof. eval_arrays. f_equal. solve_rows. Qed.

(** Later iterations do not write the first element, with rounding as
    without. *)
Lemma smoothed_body_rnd_at rnd decay (x : list R) (y : list R) last t xt :
  x !! t = Some xt →
  smoothed_body_rnd rnd decay x (y, last) t
  = Some (<[t := rnd (rnd (rnd (decay * last) + rnd (rnd (1 - decay) * xt))
                      / rnd (1 - rnd (decay ^ (t + 1))))%R]> y,
          rnd (rnd (decay * last) + rnd (rnd (1 - decay) * xt))%R).
Proof. intros Hx. unfold smoothed_body_rnd. by rewrite Hx. Qed.

Lemma smoothed_loop_rnd rnd decay (x : list R) n : ∀ s (y : list R) last,
  s + n ≤ length x →
  ∃ y' last',
    for_each (smoothed_body_rnd rnd decay x) (seq s n) (y, last)
    = Some (y', last')
    ∧ length y' = length y
    ∧ ∀ k, k < s → y' !! k = y !! k.
Proof.
  induction n as [|n IH]; intros s y last Hs.
  - by exists y, last.
  - cbn [seq for_each].
    destruct (lookup_lt_is_Some_2 x s) as [xt Hxt]; [lia|].
    rewrite (smoothed_body_rnd_at _ _ _ _ _ _ _ Hxt). cbn [mbind option_bind].
    match goal with
    | |- context [for_each _ _ (?y1, ?z1)] =>
        destruct (IH (S s) y1 z1) as (y' & last' & Hrun & Hlen & Hkeep);
          [lia|]
    end.
    exists y', last'. split; [exact Hrun|]. split.
    + by rewrite Hlen, length_insert.
    + intros k Hk. rewrite Hkeep by lia.
      apply list_lookup_insert_ne. lia.
Qed.

(** Rounding a value that is itself within relative error [e] of [c]: the
    errors compound to [(1 + e)(1 + u) - 1]. *)
Lemma accurate_compose rnd u (e b c : R) :
  accurate rnd u → (0 <= u)%R → (0 <= e)%R →
  (Rabs (b - c) <= e * Rabs c)%R →
  (Rabs (rnd b - c) <= ((1 + e) * (1 + u) - 1) * Rabs c)%R.
Proof.
  intros Hrnd Hu He Hb.
  pose proof (Hrnd b) as Hz.
  pose proof (Rabs_pos c) as Hc.
  assert (Hbb : (Rabs b <= (1 + e) * Rabs c)%R).
  { replace b with ((b - c) + c)%R by ring.
    eapply Rle_trans; [apply Rabs_triang|]. lra. }
  replace (rnd b - c)%R with ((rnd b - b) + (b - c))%R by ring.
  eapply Rle_trans; [apply Rabs_triang|].
  pose proof (Rabs_pos b). nra.
Qed.

Lemma accurate_zero rnd u : accurate rnd u → rnd 0%R = 0%R.
Proof.
  intros Hrnd. pose proof (Hrnd 0%R) as H.
  rewrite Rabs_R0, Rmult_0_r, Rminus_0_r in H.
  pose proof (Rabs_pos (rnd 0%R)).
  destruct (Req_dec (rnd 0%R) 0%R) as [|Hne]; [done|].
  pose proof (Rabs_pos_lt _ Hne). lra.
Qed.

Lemma accurate_pos rnd u (v : R) :
  accurate rnd u → (0 <= u < 1)%R → (0 < v)%R → (0 < rnd v)%R.
Proof.
  intros Hrnd Hu Hv. pose proof (Hrnd v) as H.
  rewrite (Rabs_pos_eq v) in H by lra.
  unfold Rabs in H. destruct (Rcase_abs (rnd v - v)); nra.
Qed.

Lemma round_off_accurate keep : accurate (round_off keep) (1 / 1024).
Proof.
  intros v. unfold round_off. destruct (Req_dec_T v keep) as [_|_].
  - replace (v - v)%R with 0%R by ring. rewrite Rabs_R0.
    pose proof (Rabs_pos v). lra.
  - replace (v * (1 + 1 / 1024) - v)%R with (1 / 1024 * v)%R by field.
    rewrite Rabs_mult, (Rabs_pos_eq (1 / 1024)) by lra. lra.
Qed.

(** C7 (as amended). For a decay in [0, 1) that is a float64 and a non-empty
    series [x], the first element of the smoothed series is [x[0]] up to
    rounding: with every operation rounded to relative error [u], [y[0]] is
    within [((1 + u)^3 - 1) * |x[0]|] of [x[0]], and equal to it when nothing
    is rounded ([u = 0]). *)
Theorem smoothed_loss_first_rounded rnd u decay (x0 : R) (xs : list R) :
  (0 <= u < 1)%R → accurate rnd u →
  (0 <= decay < 1)%R → rnd decay = decay →
  ∃ y y0, smoothed_loss_rnd rnd (x0 :: xs) decay = Some y
       ∧ length y = length (x0 :: xs)
       ∧ y !! 0 = Some y0
       ∧ (Rabs (y0 - x0) <= ((1 + u) ^ 3 - 1) * Rabs x0)%R.
Proof.
  intros Hu Hrnd Hd Hfix. unfold smoothed_loss_rnd. cbn [length seq for_each].
  rewrite (smoothed_body_rnd_at _ _ _ _ _ 0 x0) by done.
  cbn [mbind option_bind].
  replace (decay ^ (0 + 1))%R with decay by (simpl; ring).
  rewrite Hfix, Rmult_0_r, (accurate_zero rnd u Hrnd).
  set (a := rnd (1 - decay)%R).
  set (z := rnd (0 + rnd (a * x0))%R).
  destruct (smoothed_loop_rnd rnd decay (x0 :: xs) (length xs) 1
              (<[0 := rnd (z / a)%R]> (replicate (S (length xs)) 0%R)) z)
    as (y & last & Hrun & Hlen & Hkeep); [simpl; lia|].
  exists y, (rnd (z / a)%R). rewrite Hrun. split; [done|]. split.
  { rewrite Hlen, length_insert, length_replicate. done. }
  split; [by rewrite Hkeep by lia|].
  assert (Ha : (0 < a)%R) by (apply (accurate_pos rnd u); [done..|lra]).
  assert (Hz : (Rabs (z - a * x0)
                <= ((1 + u) * (1 + u) - 1) * Rabs (a * x0))%R).
  { unfold z. apply accurate_compose; [done | lra | lra |].
    rewrite Rplus_0_l. apply Hrnd. }
  assert (Hw : (Rabs (z / a - x0) <= ((1 + u) * (1 + u) - 1) * Rabs x0)%R).
  { replace (z / a - x0)%R with ((z - a * x0) * / a)%R by (field; lra).
    rewrite Rabs_mult, (Rabs_pos_eq (/ a)) by (left; by apply Rinv_0_lt_compat).
    rewrite Rabs_mult, (Rabs_pos_eq a) in Hz by lra.
    apply (Rmult_le_reg_r a); [done|].
    rewrite Rmult_assoc, Rinv_l by lra. lra. }
  replace ((1 + u) ^ 3 - 1)%R
    with ((1 + ((1 + u) * (1 + u) - 1)) * (1 + u) - 1)%R by ring.
  apply accurate_compose; [done | lra | nra | done].
Qed.

Lemma smoothed_loss_first_rounded_witness :
  ∃ y y0, smoothed_loss_rnd (round_off (1 / 2)) [2; 3]%R (1 / 2) = Some y
       ∧ length y = length [2; 3]%R
       ∧ y !! 0 = Some y0
       ∧ (Rabs (y0 - 2) <= ((1 + 1 / 1024) ^ 3 - 1) * Rabs 2)%R.
Proof.
  apply (smoothed_loss_first_rounded (round_off (1 / 2)) (1 / 1024)).
  - lra.
  - apply round_off_accurate.
  - lra.
  - unfold round_off. by destruct (Req_dec_T (1 / 2) (1 / 2)).
Defined.

(** C7, as stated, fails in float64: with [decay = 0.99] and [x = [0.21]] the
    quotient [((1 - 0.99) * 0.21) / (1 - 0.99)] rounds to
    0.20999999999999996, one unit in the last place below [x[0]]. *)
Lemma smoothed_loss_first_inexact :
  smoothed_loss_f [0x1.ae147ae147ae1p-3]%float 0x1.fae147ae147aep-1
  = Some [0x1.ae147ae147ae0p-3]%float
  ∧ (0x1.ae147ae147ae0p-3 <? 0x1.ae147ae147ae1p-3)%float = true.
Proof. split; reflexivity. Qed.

(** ** One-hot expansion of a sentence *)

Lemma one_hot_length V tok : length (one_hot V tok) = V.
Proof. unfold one_hot. by rewrite length_fmap, length_seq. Qed.

Lemma one_hot_alter V tok :
  in_range V tok →
  alter (λ _, 1%R) (Z.to_nat tok) (replicate V 0%R) = one_hot V tok.
Proof.
  intros Hin. apply list_eq. intros k. unfold one_hot.
  rewrite list_lookup_alter, list_lookup_fmap.
  destruct (decide (k < V)) as [Hk|Hk].
  - rewrite lookup_seq_lt by done. simpl.
    destruct (decide (Z.to_nat tok = k)) as [<-|Hne].
    + rewrite lookup_replicate_2 by done. simpl.
      rewrite decide_True; [done|]. unfold in_range in Hin. lia.
    + rewrite lookup_replicate_2 by done.
      rewrite decide_False; [done|]. lia.
  - rewrite lookup_seq_ge by lia. simpl.
    case_decide; subst; [unfold in_range in Hin; lia|].
    apply lookup_replicate_None. lia.
Qed.

Lemma mat_set_one_zero_row V (pre rest : Matrix) tok :
  in_range V tok →
  mat_set_one (pre ++ replicate V 0%R :: rest) (Z.of_nat (length pre)) tok
  = Some (pre ++ one_hot V tok :: rest).
Proof.
  intros Hin. unfold mat_set_one. rewrite mat_update_resolve. unfold resolve.
  rewrite np_index_in_range
    by (unfold in_range; rewrite length_app; simpl; lia).
  rewrite Nat2Z.id. cbn [mbind option_bind].
  rewrite list_lookup_middle by done. cbn [mbind option_bind].
  rewrite length_replicate, np_index_in_range by done. simpl.
  f_equal. unfold upd. simpl.
  rewrite <- (Nat.add_0_r (length pre)), alter_app_r. simpl.
  by rewrite one_hot_alter.
Qed.

Lemma assign_ones_rows V (toks : list Z) : ∀ pre : Matrix,
  Forall (in_range V) toks →
  for_each (λ M' (rc : Z * Z), mat_set_one M' rc.1 rc.2)
           (zip (Z.of_nat <$> seq (length pre) (length toks)) toks)
           (pre ++ replicate (length toks) (replicate V 0%R))
  = Some (pre ++ (one_hot V <$> toks)).
Proof.
  induction toks as [|tok toks IH]; intros pre Hall.
  - simpl. by rewrite !app_nil_r.
  - apply Forall_cons in Hall as [Htok Hall].
    cbn [length seq fmap list_fmap zip zip_with replicate for_each fst snd].
    rewrite mat_set_one_zero_row by done. cbn [mbind option_bind].
    specialize (IH (pre ++ [one_hot V tok]) Hall).
    rewrite length_app, Nat.add_1_r, <- !app_assoc in IH.
    exact IH.
Qed.

Lemma assign_ones_one_hot V (toks : list Z) :
  Forall (in_range V) toks →
  assign_ones (np_zeros (length toks) V) (arange (length toks)) toks
  = Some (one_hot V <$> toks).
Proof. intros Hall. exact (assign_ones_rows V toks [] Hall). Qed.

Section Expansion.
Variables (V : nat) (start_idx end_idx : Z).
Hypothesis Hstart : in_range V start_idx.
Hypothesis Hend : in_range V end_idx.

Lemma make_examples_one_hot raw :
  Forall (in_range V) raw →
  make_examples V start_idx end_idx raw
  = Some (one_hot V <$> (start_idx :: raw), one_hot V <$> (raw ++ [end_idx])).
Proof.
  intros Hraw. unfold make_examples, padded.
  replace (length ([start_idx] ++ raw ++ [end_idx]) - 1)
    with (length (start_idx :: raw))
    by (simpl; rewrite length_app; simpl; lia).
  replace (take (length (start_idx :: raw)) ([start_idx] ++ raw ++ [end_idx]))
    with (start_idx :: raw)
    by (change ([start_idx] ++ raw ++ [end_idx])
          with ((start_idx :: raw) ++ [end_idx]);
        by rewrite take_app_length).
  rewrite assign_ones_one_hot by (by apply Forall_cons).
  cbn [mbind option_bind].
  replace (length (start_idx :: raw)) with (length (raw ++ [end_idx]))
    by (rewrite length_app; simpl; lia).
  change (drop 1 ([start_idx] ++ raw ++ [end_idx])) with (raw ++ [end_idx]).
  rewrite assign_ones_one_hot; [done|].
  apply Forall_app. split; [done|]. by apply Forall_singleton.
Qed.

(** C5. A sentence of [n] ordinary tokens is padded to
    [[start_idx] + sentence + [end_idx]] and expanded into exactly [n + 1]
    examples: example [k] has the one-hot vector of [padded[k]] as input
    and that of [padded[k + 1]] as target, for [k = 0 .. n]. *)
Theorem make_examples_pairs raw :
  Forall (in_range V) raw →
  ∃ inputs targets,
    make_examples V start_idx end_idx raw = Some (inputs, targets)
    ∧ length inputs = length raw + 1
    ∧ length targets = length raw + 1
    ∧ ∀ k, k ≤ length raw →
        ∃ a b, padded start_idx end_idx raw !! k = Some a
             ∧ padded start_idx end_idx raw !! (k + 1) = Some b
             ∧ inputs !! k = Some (one_hot V a)
             ∧ targets !! k = Some (one_hot V b).
Proof.
  intros Hraw. eexists _, _. split; [by apply make_examples_one_hot|].
  split; [rewrite length_fmap; simpl; lia|].
  split; [by rewrite length_fmap, length_app|].
  intros k Hk.
  destruct (lookup_lt_is_Some_2 (start_idx :: raw) k) as [a Ha];
    [simpl; lia|].
  destruct (lookup_lt_is_Some_2 (raw ++ [end_idx]) k) as [b Hb];
    [rewrite length_app; simpl; lia|].
  exists a, b. rewrite !list_lookup_fmap, Ha, Hb. unfold padded.
  repeat split.
  - change ([start_idx] ++ raw ++ [end_idx])
      with ((start_idx :: raw) ++ [end_idx]).
    rewrite lookup_app_l by (simpl; lia). done.
  - rewrite Nat.add_1_r. done.
Qed.
End Expansion.

Lemma make_examples_pairs_witness :
  ∃ inputs targets,
    make_examples 4 0 1 [2; 3]%Z = Some (inputs, targets)
    ∧ length inputs = length [2; 3]%Z + 1
    ∧ length targets = length [2; 3]%Z + 1
    ∧ ∀ k, k ≤ length [2; 3]%Z →
        ∃ a b, padded 0 1 [2; 3]%Z !! k = Some a
             ∧ padded 0 1 [2; 3]%Z !! (k + 1) = Some b
             ∧ inputs !! k = Some (one_hot 4 a)
             ∧ targets !! k = Some (one_hot 4 b).
Proof.
  apply (make_examples_pairs 4 0 1).
  - solve_in_range.
  - solve_in_range.
  - repeat constructor; solve_in_range.
Defined.

Example make_examples_the_cat :
  make_examples 4 0 1 [2; 3]%Z
  = Some ([[1; 0; 0; 0]; [0; 0; 1; 0]; [0; 0; 0; 1]],
          [[0; 0; 1; 0]; [0; 0; 0; 1]; [0; 1; 0; 0]])%R.
Proof. reflexivity. Qed.

Example make_examples_empty_sentence :
  make_examples 4 0 1 [] = Some ([[1; 0; 0; 0]], [[0; 1; 0; 0]])%R.
Proof. reflexivity. Qed.

(** ** [softmax] *)

Lemma sum_exp_pos (row : list R) : row ≠ [] → (0 < sum_R (exp <$> row))%R.
Proof.
  intros Hne. apply sum_R_pos.
  - by destruct row.
  - apply Forall_fmap, Forall_true. intros x. apply exp_pos.
Qed.

Lemma sum_exp_shift (row : list R) (m : R) :
  sum_R ((λ x, exp (x - m)) <$> row) = (sum_R (exp <$> row) / exp m)%R.
Proof.
  pose proof (exp_pos m) as Hm.
  induction row as [|x row IH].
  - unfold sum_R, Rdiv. simpl. lra.
  - rewrite !fmap_cons, !sum_R_cons, IH.
    unfold Rminus. rewrite exp_plus, exp_Ropp. field. lra.
Qed.

(** Subtracting any constant before exponentiating leaves the normalised row
    unchanged. *)
Lemma softmax_row_shift (row : list R) (m : R) :
  row ≠ [] →
  (λ y, y / sum_R ((λ x, exp (x - m)) <$> row))%R <$> ((λ x, exp (x - m)) <$> row)
  = softmax_row_plain row.
Proof.
  intros Hne. unfold softmax_row_plain. rewrite <- list_fmap_compose.
  apply list_fmap_ext. intros _ x _. simpl.
  rewrite sum_exp_shift.
  pose proof (exp_pos m). pose proof (sum_exp_pos row Hne).
  unfold Rminus. rewrite exp_plus, exp_Ropp. field. lra.
Qed.

Lemma softmax_row_stable_plain (row : list R) :
  row ≠ [] → softmax_row_stable row = softmax_row_plain row.
Proof. apply softmax_row_shift. Qed.

Lemma softmax_row_plain_stochastic (row : list R) :
  row ≠ [] →
  sum_R (softmax_row_plain row) = 1%R
  ∧ Forall (λ p, 0 < p)%R (softmax_row_plain row).
Proof.
  intros Hne. pose proof (sum_exp_pos row Hne) as Hs.
  unfold softmax_row_plain. split.
  - transitivity (sum_R ((λ y, y / sum_R (exp <$> row))%R <$> (exp <$> row))).
    + by rewrite <- list_fmap_compose.
    + rewrite sum_R_div. field. lra.
  - apply Forall_fmap, Forall_true. intros x. simpl.
    apply Rdiv_lt_0_compat; [apply exp_pos | done].
Qed.

Lemma np_max_nonempty n V (a : Matrix) :
  0 < n → 0 < V → shape n V a → ∃ m, np_max a = Some m.
Proof.
  intros Hn HV [Hl Hr]. unfold np_max.
  destruct a as [|row a]; [simpl in Hl; lia|].
  apply Forall_cons in Hr as [Hrow _].
  destruct row as [|x row]; [simpl in Hrow; lia|].
  simpl. eauto.
Qed.

Lemma softmax_plain n V (a : Matrix) :
  0 < n → 0 < V → shape n V a →
  softmax a = Some (softmax_row_plain <$> a).
Proof.
  intros Hn HV Hsh. destruct (np_max_nonempty n V a Hn HV Hsh) as [m Hm].
  unfold softmax. rewrite Hm. cbn [mbind option_bind]. f_equal.
  unfold normalize_rows, mat_map.
  rewrite <- !list_fmap_compose.
  apply list_fmap_ext. intros i row Hrow. simpl.
  destruct (shape_lookup _ _ _ _ _ Hsh Hrow) as [_ Hlen].
  rewrite <- (list_fmap_compose (λ x, x - m)%R exp).
  apply softmax_row_shift. intros ->. simpl in Hlen. lia.
Qed.

(** In exact arithmetic the shift cancels: on every array with at least one
    row and one column, [softmax] over the reals (which subtracts the maximum
    of the whole array) and the row-wise softmax of the specification (which
    subtracts the maximum of each row) coincide, and every row is a
    probability distribution.  The two part only where [np.exp] underflows,
    which [softmax_f] shows. *)
Theorem softmax_refines_per_row n V (a : Matrix) :
  0 < n → 0 < V → shape n V a →
  softmax a = Some (softmax_per_row a)
  ∧ Forall (λ row, sum_R row = 1%R ∧ Forall (λ p, 0 < p)%R row)
           (softmax_per_row a).
Proof.
  intros Hn HV Hsh.
  assert (Hrows : ∀ i (row : list R), a !! i = Some row → row ≠ []).
  { intros i row Hrow ->.
    destruct (shape_lookup _ _ _ _ _ Hsh Hrow) as [_ Hlen].
    simpl in Hlen. lia. }
  assert (Heq : softmax_per_row a = softmax_row_plain <$> a).
  { unfold softmax_per_row. apply list_fmap_ext.
    intros i row Hrow. apply softmax_row_stable_plain. exact (Hrows _ _ Hrow). }
  rewrite Heq. split; [exact (softmax_plain n V a Hn HV Hsh)|].
  apply Forall_fmap, Forall_lookup. intros i row Hrow. simpl.
  apply softmax_row_plain_stochastic. exact (Hrows _ _ Hrow).
Qed.

Lemma softmax_refines_per_row_witness :
  softmax [[1; 2]; [3; 4]]%R = Some (softmax_per_row [[1; 2]; [3; 4]]%R)
  ∧ Forall (λ row, sum_R row = 1%R ∧ Forall (λ p, 0 < p)%R row)
           (softmax_per_row [[1; 2]; [3; 4]]%R).
Proof.
  apply (softmax_refines_per_row 2 2); [lia | lia |].
  split; [reflexivity | repeat constructor].
Defined.

(** The maximum of an array without elements is an error. *)
Example softmax_no_rows : softmax [] = None.
Proof. reflexivity. Qed.

Example softmax_no_columns : softmax [[]; []] = None.
Proof. reflexivity. Qed.

Section SoftmaxFloat64.
Variable np_exp : float → float.
Hypothesis exp_zero : np_exp 0 = 1%float.
Hypothesis exp_underflow : np_exp (-1000) = 0%float.

(** C4. The program's softmax is not the per-row-stable softmax: on
    [[0, 0], [1000, 1000]] it subtracts the maximum 1000 of the whole array,
    the first row underflows to [exp(-1000) = 0.0] and is returned as
    0/0 = nan, where the softmax of the specification returns [0.5, 0.5] in
    both rows. *)
Theorem softmax_global_max_nan :
  softmax_f np_exp [[0; 0]; [1000; 1000]]%float
  = Some [[nan; nan]; [0.5; 0.5]]%float
  ∧ softmax_per_row_f np_exp [[0; 0]; [1000; 1000]]%float
    = [[0.5; 0.5]; [0.5; 0.5]]%float.
Proof.
  split.
  - vm_compute. rewrite exp_zero, exp_underflow. reflexivity.
  - vm_compute. rewrite exp_zero. reflexivity.
Qed.

End SoftmaxFloat64.

Lemma softmax_global_max_nan_witness :
  softmax_f exp_coarse [[0; 0]; [1000; 1000]]%float
  = Some [[nan; nan]; [0.5; 0.5]]%float
  ∧ softmax_per_row_f exp_coarse [[0; 0]; [1000; 1000]]%float
    = [[0.5; 0.5]; [0.5; 0.5]]%float.
Proof. apply softmax_global_max_nan; reflexivity. Defined.

(** ** A step from all-zero weights *)

Lemma np_dot_aligned (A B : Matrix) :
  Forall (λ a : list R, length a = length B) A → is_Some (np_dot A B).
Proof. intros H. unfold np_dot. by rewrite decide_True. Qed.

Lemma sum_R_zip_zero (a : list R) : ∀ n,
  sum_R (zip_with Rmult a (replicate n 0%R)) = 0%R.
Proof.
  induction a as [|x a IH]; intros [|n]; try done.
  cbn [replicate zip_with]. rewrite sum_R_cons, IH. lra.
Qed.

Lemma column_zeros j r c : column j (np_zeros r c) = replicate r 0%R.
Proof.
  unfold column, np_zeros. rewrite fmap_replicate. f_equal.
  destruct (decide (j < c)).
  - by rewrite lookup_replicate_2.
  - assert (replicate c 0%R !! j = None) as ->; [|done].
    apply lookup_replicate_None. lia.
Qed.

Lemma np_dot_zeros V (A : Matrix) :
  0 < V → Forall (λ a : list R, length a = V) A →
  np_dot A (np_zeros V V) = Some (np_zeros (length A) V).
Proof.
  intros HV HA. unfold np_dot.
  assert (Hlen : length (np_zeros V V) = V) by apply length_replicate.
  rewrite decide_True by (by rewrite Hlen). f_equal.
  assert (Hc : ncols (np_zeros V V) = V).
  { unfold ncols, np_zeros. destruct V; [lia|]. simpl.
    by rewrite length_replicate. }
  rewrite Hc. unfold np_zeros at 2.
  erewrite const_fmap; [reflexivity|]. intros i a _. simpl.
  erewrite const_fmap; [by rewrite length_seq|]. intros k j _. simpl.
  rewrite column_zeros. apply sum_R_zip_zero.
Qed.

Lemma shape_np_zeros r c : shape r c (np_zeros r c).
Proof.
  split; [apply length_replicate|].
  apply Forall_replicate, length_replicate.
Qed.

Lemma softmax_zeros n V :
  0 < n → 0 < V →
  softmax (np_zeros n V) = Some (replicate n (replicate V (1 / INR V)%R)).
Proof.
  intros Hn HV.
  rewrite (softmax_plain n V (np_zeros n V) Hn HV (shape_np_zeros n V)).
  f_equal. unfold np_zeros. rewrite fmap_replicate. f_equal.
  unfold softmax_row_plain.
  rewrite !fmap_replicate, sum_R_replicate, exp_0. f_equal.
  assert (INR V ≠ 0)%R by (apply not_0_INR; lia). by field.
Qed.

Lemma sum_R_scale (l : list R) (c : R) :
  sum_R (flip Rmult c <$> l) = (sum_R l * c)%R.
Proof.
  induction l as [|x l IH]; [unfold sum_R; simpl; lra|].
  rewrite fmap_cons, !sum_R_cons, IH. unfold flip. lra.
Qed.

Lemma sum_R_one_hot V tok : in_range V tok → sum_R (one_hot V tok) = 1%R.
Proof.
  intros Hin. unfold one_hot.
  rewrite (list_fmap_ext _ (λ k, if decide (k = Z.to_nat tok) then 1%R else 0%R)).
  - rewrite sum_R_indicator. rewrite decide_True; [done|].
    unfold in_range in Hin. lia.
  - intros _ k _. unfold in_range in Hin.
    repeat case_decide; try done; lia.
Qed.

(** The cross-entropy of one-hot targets against constant predictions. *)
Lemma cross_entropy_constant V (toks : list Z) (p : R) :
  toks ≠ [] → Forall (in_range V) toks →
  cross_entropy (one_hot V <$> toks)
                (replicate (length toks) (replicate V p)) (length toks)
  = (- ln p)%R.
Proof.
  intros Hne Hall. unfold cross_entropy, mat_zip, mat_map.
  rewrite !fmap_replicate.
  rewrite zip_with_replicate_r_eq by (by rewrite length_fmap).
  rewrite <- !list_fmap_compose.
  erewrite (const_fmap _ toks (ln p)).
  - rewrite sum_R_replicate.
    assert (INR (length toks) ≠ 0)%R
      by (apply not_0_INR; by destruct toks).
    by field.
  - intros i tok Htok. simpl. unfold flip.
    assert (Hin : in_range V tok)
      by exact (proj1 (Forall_lookup _ _) Hall _ _ Htok).
    rewrite zip_with_replicate_r_eq by apply one_hot_length.
    rewrite sum_R_scale, sum_R_one_hot by done. lra.
Qed.

(** ** Numerical value of [ln 4] *)

Lemma exp_mult_nat (n : nat) (y : R) : exp (INR n * y) = (exp y ^ n)%R.
Proof.
  induction n as [|n IH].
  - simpl. rewrite Rmult_0_l. apply exp_0.
  - rewrite S_INR, Rmult_plus_distr_r, Rmult_1_l, exp_plus, IH. simpl. lra.
Qed.

Lemma pow_double (x : R) (k : nat) :
  (x ^ (2 ^ S k))%R = (x ^ (2 ^ k) * x ^ (2 ^ k))%R.
Proof.
  replace (2 ^ S k) with (2 ^ k + 2 ^ k) by (rewrite Nat.pow_succ_r'; lia).
  apply pow_add.
Qed.

Lemma square_step_lower (x : R) (k : nat) (a a' : R) :
  (0 <= a)%R → (a' <= a * a)%R → (a <= x ^ (2 ^ k))%R →
  (a' <= x ^ (2 ^ S k))%R.
Proof. intros Ha Hsq Hx. rewrite pow_double. nra. Qed.

Lemma square_step_upper (x : R) (k : nat) (b b' : R) :
  (0 <= x)%R → (b * b <= b')%R → (x ^ (2 ^ k) <= b)%R →
  (x ^ (2 ^ S k) <= b')%R.
Proof.
  intros Hx0 Hsq Hx. rewrite pow_double.
  assert (0 <= x ^ (2 ^ k))%R by (by apply pow_le). nra.
Qed.

Lemma exp_lower_bound (k : nat) (y a : R) :
  (0 <= 1 + y)%R → (a <= (1 + y) ^ (2 ^ k))%R →
  (a <= exp (INR (2 ^ k) * y))%R.
Proof.
  intros Hy Ha. rewrite exp_mult_nat.
  eapply Rle_trans; [exact Ha|].
  apply pow_incr. split; [done|]. apply exp_ineq1_le.
Qed.

Lemma exp_upper_bound (k : nat) (y b : R) :
  (y < 1)%R → ((/ (1 - y)) ^ (2 ^ k) <= b)%R →
  (exp (INR (2 ^ k) * y) <= b)%R.
Proof.
  intros Hy Hb. rewrite exp_mult_nat.
  eapply Rle_trans; [|exact Hb].
  apply pow_incr. split; [left; apply exp_pos|].
  pose proof (exp_ineq1_le (- y)) as Hn. rewrite exp_Ropp in Hn.
  pose proof (exp_pos y) as Hp.
  apply Rinv_le_contravar in Hn; [|lra].
  rewrite Rinv_inv in Hn. replace (1 - y)%R with (1 + - y)%R by lra. done.
Qed.

Lemma exp_1387_lower : (4 < exp 1.387)%R.
Proof.
  replace 1.387%R with (INR (2 ^ 14) * (1387 / 16384000))%R
    by (rewrite pow_INR; simpl; lra).
  eapply Rlt_le_trans;
    [|apply (exp_lower_bound 14 (1387 / 16384000) (4002588570877968 / 1000000000000000)); [lra|]].
  { lra. }

  apply (square_step_lower _ 13 (2000647038054931 / 1000000000000000)); [lra | lra |].
  apply (square_step_lower _ 12 (1414442306371996 / 1000000000000000)); [lra | lra |].
  apply (square_step_lower _ 11 (1189303286118388 / 1000000000000000)); [lra | lra |].
  apply (square_step_lower _ 10 (1090551826424764 / 1000000000000000)); [lra | lra |].
  apply (square_step_lower _ 9 (1044294894378386 / 1000000000000000)); [lra | lra |].
  apply (square_step_lower _ 8 (1021907478384607 / 1000000000000000)); [lra | lra |].
  apply (square_step_lower _ 7 (1010894395268174 / 1000000000000000)); [lra | lra |].
  apply (square_step_lower _ 6 (1005432441921472 / 1000000000000000)); [lra | lra |].
  apply (square_step_lower _ 5 (1002712542018635 / 1000000000000000)); [lra | lra |].
  apply (square_step_lower _ 4 (1001355352519092 / 1000000000000000)); [lra | lra |].
  apply (square_step_lower _ 3 (1000677446792468 / 1000000000000000)); [lra | lra |].
  apply (square_step_lower _ 2 (1000338666048888 / 1000000000000000)); [lra | lra |].
  apply (square_step_lower _ 1 (1000169318690035 / 1000000000000000)); [lra | lra |].
  apply (square_step_lower _ 0 (1 + 1387 / 16384000)); [lra | lra |].
  simpl. lra.
Qed.

Lemma exp_1386_upper : (exp 1.386 < 4)%R.
Proof.
  replace 1.386%R with (INR (2 ^ 14) * (1386 / 16384000))%R
    by (rewrite pow_INR; simpl; lra).
  eapply Rle_lt_trans;
    [apply (exp_upper_bound 14 (1386 / 16384000) (3999057176500880 / 1000000000000000)); [lra|] | lra].
  assert (Hinv : (/ (1 - 1386 / 16384000) = 16384000 / 16382614)%R)
    by (field; lra).
  rewrite Hinv.

  apply (square_step_upper _ 13 (1999764280234268 / 1000000000000000)); [lra | lra |].
  apply (square_step_upper _ 12 (1414130220394949 / 1000000000000000)); [lra | lra |].
  apply (square_step_upper _ 11 (1189172073501118 / 1000000000000000)); [lra | lra |].
  apply (square_step_upper _ 10 (1090491665947575 / 1000000000000000)); [lra | lra |].
  apply (square_step_upper _ 9 (1044266089628297 / 1000000000000000)); [lra | lra |].
  apply (square_step_upper _ 8 (1021893384668037 / 1000000000000000)); [lra | lra |].
  apply (square_step_upper _ 7 (1010887424329750 / 1000000000000000)); [lra | lra |].
  apply (square_step_upper _ 6 (1005428975278587 / 1000000000000000)); [lra | lra |].
  apply (square_step_upper _ 5 (1002710813384690 / 1000000000000000)); [lra | lra |].
  apply (square_step_upper _ 4 (1001354489371616 / 1000000000000000)); [lra | lra |].
  apply (square_step_upper _ 3 (1000677015510807 / 1000000000000000)); [lra | lra |].
  apply (square_step_upper _ 2 (1000338450481039 / 1000000000000000)); [lra | lra |].
  apply (square_step_upper _ 1 (1000169210924351 / 1000000000000000)); [lra | lra |].
  apply (square_step_upper _ 0 (1000084601883436 / 1000000000000000)); [lra | lra |].
  simpl. lra.
Qed.

(** [ln 4] to three decimals: 1.386. *)
Lemma ln_4_bounds : (1.386 < ln 4 < 1.387)%R.
Proof.
  split; apply exp_lt_inv; rewrite exp_ln by lra.
  - apply exp_1386_upper.
  - apply exp_1387_lower.
Qed.

Section ZeroWeights.
Variables (V : nat) (start_idx end_idx : Z).
Hypothesis Hstart : in_range V start_idx.
Hypothesis Hend : in_range V end_idx.

Lemma predict_zeros raw :
  Forall (in_range V) raw →
  predict (np_zeros V V) (one_hot V <$> (start_idx :: raw))
  = Some (replicate (length raw + 1) (replicate V (1 / INR V)%R)).
Proof.
  intros Hraw. assert (HV : 0 < V) by (unfold in_range in Hstart; lia).
  unfold predict. rewrite np_dot_zeros.
  - cbn [mbind option_bind]. rewrite length_fmap. cbn [length].
    rewrite softmax_zeros by lia. by rewrite Nat.add_1_r.
  - done.
  - apply Forall_fmap, Forall_true. intros tok. apply one_hot_length.
Qed.

(** C6. With an all-zero weight matrix, the predictions of a step are
    uniform (1/V in every column of every row) and the loss of the step is
    [ln V]; for [V = 4] this is [ln 4], which is 1.386 to three
    decimals. *)
Theorem zero_weights_uniform_loss lr raw :
  Forall (in_range V) raw →
  ∃ out, sgd_step V start_idx end_idx lr (np_zeros V V) raw = Some out
    ∧ out_predictions out
      = replicate (length raw + 1) (replicate V (1 / INR V)%R)
    ∧ out_loss out = ln (INR V)
    ∧ (V = 4 → out_loss out = ln 4 ∧ (1.386 < out_loss out < 1.387)%R).
Proof.
  intros Hraw. assert (HV : 0 < V) by (unfold in_range in Hstart; lia).
  unfold sgd_step.
  rewrite (make_examples_one_hot V start_idx end_idx Hstart Hend raw Hraw).
  cbn [mbind option_bind fst snd].
  rewrite predict_zeros by done. cbn [mbind option_bind].
  set (inputs := one_hot V <$> start_idx :: raw).
  set (targets := one_hot V <$> raw ++ [end_idx]).
  set (predictions := replicate (length raw + 1) (replicate V (1 / INR V)%R)).
  destruct (np_dot_aligned (transpose inputs)
              (mat_zip Rminus predictions targets)) as [grad Hgrad].
  { unfold transpose. apply Forall_fmap, Forall_true. intros k. simpl.
    unfold column, mat_zip, inputs, predictions, targets.
    rewrite length_zip_with, !length_fmap, length_replicate, length_app.
    simpl. lia. }
  rewrite Hgrad. cbn [mbind option_bind].
  eexists. split; [reflexivity|]. cbn [out_predictions out_loss].
  split; [done|].
  assert (Hloss : cross_entropy targets predictions
                    (length (padded start_idx end_idx raw) - 1)
                  = ln (INR V)).
  { replace (length (padded start_idx end_idx raw) - 1)
      with (length (raw ++ [end_idx]))
      by (unfold padded; rewrite !length_app; simpl; lia).
    unfold targets, predictions.
    replace (length raw + 1) with (length (raw ++ [end_idx]))
      by (rewrite length_app; simpl; lia).
    rewrite (cross_entropy_constant V).
    - unfold Rdiv. rewrite Rmult_1_l, ln_Rinv by (apply lt_0_INR; lia). lra.
    - by destruct raw.
    - apply Forall_app. split; [done|]. by apply Forall_singleton. }
  split; [done|]. intros ->. rewrite Hloss.
  replace (INR 4) with 4%R by (simpl; lra).
  split; [done | apply ln_4_bounds].
Qed.
End ZeroWeights.

Lemma zero_weights_uniform_loss_witness :
  ∃ out, sgd_step 4 0 1 (1/10) (np_zeros 4 4) [2; 3]%Z = Some out
    ∧ out_predictions out
      = replicate (length [2; 3]%Z + 1) (replicate 4 (1 / INR 4)%R)
    ∧ out_loss out = ln (INR 4)
    ∧ (4 = 4 → out_loss out = ln 4 ∧ (1.386 < out_loss out < 1.387)%R).
Proof.
  apply (zero_weights_uniform_loss 4 0 1).
  - solve_in_range.
  - solve_in_range.
  - repeat constructor; solve_in_range.
Defined.

Lemma ncols_shape r c (M : Matrix) : 0 < r → shape r c M → ncols M = c.
Proof.
  intros Hr [Hl Hrows]. unfold ncols.
  destruct M as [|row M]; [simpl in Hl; lia|].
  by apply Forall_cons in Hrows as [Hrow _].
Qed.

Lemma np_dot_value (A B : Matrix) :
  Forall (λ a : list R, length a = length B) A →
  np_dot A B
  = Some ((λ a, (λ j, sum_R (zip_with Rmult a (column j B)))
                  <$> seq 0 (ncols B)) <$> A).
Proof. intros H. unfold np_dot. by rewrite decide_True. Qed.

(** On a V×V weight matrix and a sentence over [0, V) the step raises
    nothing. *)
Lemma sgd_step_returns V start_idx end_idx lr (W0 : Matrix) raw :
  in_range V start_idx → in_range V end_idx →
  Forall (in_range V) raw → shape V V W0 →
  is_Some (sgd_step V start_idx end_idx lr W0 raw).
Proof.
  intros Hstart Hend Hraw HW.
  assert (HV : 0 < V) by (unfold in_range in Hstart; lia).
  unfold sgd_step.
  rewrite (make_examples_one_hot V start_idx end_idx Hstart Hend raw Hraw).
  cbn [mbind option_bind fst snd].
  set (inputs := one_hot V <$> start_idx :: raw).
  set (targets := one_hot V <$> raw ++ [end_idx]).
  unfold predict. rewrite (np_dot_value inputs W0).
  2:{ apply Forall_fmap, Forall_true. intros tok. simpl.
      rewrite one_hot_length. symmetry. apply HW. }
  cbn [mbind option_bind]. rewrite (ncols_shape V V W0 HV HW).
  set (logits := (λ a : list R, _) <$> inputs).
  assert (Hlogits : shape (length raw + 1) V logits).
  { unfold logits, inputs. split.
    - rewrite !length_fmap. simpl. lia.
    - apply Forall_fmap, Forall_true. intros a. simpl.
      by rewrite length_fmap, length_seq. }
  rewrite (softmax_plain (length raw + 1) V logits) by (lia || done).
  cbn [mbind option_bind].
  destruct (np_dot_aligned (transpose inputs)
              (mat_zip Rminus (softmax_row_plain <$> logits) targets))
    as [grad Hgrad].
  { unfold transpose. apply Forall_fmap, Forall_true. intros k.
    unfold compose, column, mat_zip, logits, inputs, targets.
    rewrite length_zip_with, !length_fmap, length_app. cbn [length]. lia. }
  rewrite Hgrad. by eexists.
Qed.

(** * Further properties of the estimator *)

(** ** Which inputs raise *)

Lemma np_index_is_Some n i : is_Some (np_index n i) ↔ valid_index n i.
Proof.
  unfold np_index, valid_index. split.
  - intros [k Hk]. repeat case_decide; simplify_eq; lia.
  - intros Hv. repeat case_decide; eauto; lia.
Qed.

Lemma np_index_wrap n i : np_index n (np_wrap n i) = np_index n i.
Proof.
  unfold np_index, np_wrap.
  repeat case_decide; try done; try lia; f_equal; lia.
Qed.

Lemma upd_shape f r c M ij : shape r c M → shape r c (upd f M ij).
Proof.
  intros [Hl Hr]. unfold upd. split; [by rewrite length_alter|].
  apply Forall_lookup. intros i row Hi.
  rewrite list_lookup_alter in Hi. case_decide; subst.
  - destruct (M !! ij.1) as [row0|] eqn:E; simplify_eq/=.
    rewrite length_alter. exact (proj1 (Forall_lookup _ _) Hr _ _ E).
  - exact (proj1 (Forall_lookup _ _) Hr _ _ Hi).
Qed.

Lemma mat_update_shape f r c M a b M' :
  shape r c M → mat_update f M a b = Some M' → shape r c M'.
Proof.
  intros HM. rewrite mat_update_resolve.
  destruct (resolve M a b) as [ij|]; intros; simplify_eq/=.
  by apply upd_shape.
Qed.

Lemma resolve_is_Some n c M a b :
  shape n c M → is_Some (resolve M a b) ↔ valid_index n a ∧ valid_index c b.
Proof.
  intros [Hl Hr]. unfold resolve. rewrite <- !np_index_is_Some, Hl.
  destruct (np_index n a) as [i|] eqn:Ha; simpl.
  - destruct (lookup_lt_is_Some_2 M i) as [row Hrow];
      [rewrite Hl; by eapply np_index_lt|].
    rewrite Hrow. simpl.
    rewrite (proj1 (Forall_lookup _ _) Hr _ _ Hrow).
    destruct (np_index c b) as [k|]; simpl.
    + split; intros; [split|]; by eexists.
    + split; [by intros [? ?] | by intros [_ [? ?]]].
  - split; [by intros [? ?] | by intros [[? ?] _]].
Qed.

Lemma mat_incr_is_Some n c M a b :
  shape n c M → is_Some (mat_incr M a b) ↔ valid_index n a ∧ valid_index c b.
Proof.
  intros HM. unfold mat_incr. rewrite mat_update_resolve.
  rewrite <- (resolve_is_Some n c M a b HM), fmap_is_Some. done.
Qed.

Lemma apply_incrs_is_Some n c ops : ∀ M,
  shape n c M →
  is_Some (apply_incrs ops M)
  ↔ Forall (λ rc : Z * Z, valid_index n rc.1 ∧ valid_index c rc.2) ops.
Proof.
  induction ops as [|rc ops IH]; intros M HM.
  - split; [by constructor | by eexists].
  - rewrite Forall_cons, <- (mat_incr_is_Some n c M rc.1 rc.2 HM).
    unfold apply_incrs. cbn [for_each].
    destruct (mat_incr M rc.1 rc.2) as [M1|] eqn:E; simpl.
    + rewrite <- (IH M1) by (by eapply mat_update_shape).
      split; [intros; split; [by eexists | done] | by intros [_ ?]].
    + split; [by intros [? ?] | by intros [[? ?] _]].
Qed.

Lemma Forall_zip_pair {A B} (P : A → Prop) (Q : B → Prop) (l : list A) :
  ∀ k : list B, length l = length k →
    Forall (λ ab : A * B, P ab.1 ∧ Q ab.2) (zip l k) ↔ Forall P l ∧ Forall Q k.
Proof.
  induction l as [|a l IH]; intros [|b k] Hlen; simplify_eq/=.
  - split; [done|intros; constructor].
  - rewrite !Forall_cons, (IH k Hlen). simpl. tauto.
Qed.

Lemma transitions_valid n end_idx prev rest :
  rest ≠ [] →
  Forall (λ rc : Z * Z, valid_index n rc.1 ∧ valid_index n rc.2)
         (transitions_from end_idx prev rest)
  ↔ valid_index n prev ∧ valid_index n end_idx ∧ Forall (valid_index n) rest.
Proof.
  intros Hne. rewrite transitions_adjacent_pairs by done.
  rewrite Forall_zip_pair by (rewrite length_app; simpl; lia).
  rewrite Forall_cons, Forall_app, Forall_singleton. tauto.
Qed.

(** The estimator raises exactly when some sentence that is not empty meets an
    index numpy rejects: [start_idx], [end_idx] or one of its tokens outside
    [-V, V).  Empty sentences never raise, and [smoothing] plays no part. *)
Theorem get_bigram_probs_returns_iff V start_idx end_idx sentences smoothing :
  is_Some (get_bigram_probs V start_idx end_idx sentences smoothing)
  ↔ Forall (λ s, s = [] ∨ (valid_index V start_idx ∧ valid_index V end_idx
                           ∧ Forall (valid_index V) s)) sentences.
Proof.
  unfold get_bigram_probs. rewrite count_sentences_transitions.
  transitivity (is_Some (apply_incrs
                  (corpus_transitions start_idx end_idx sentences)
                  (np_full V V smoothing))).
  { destruct (apply_incrs _ _); simpl; split; intros [? ?]; by eexists. }
  rewrite (apply_incrs_is_Some V V) by apply shape_np_full.
  unfold corpus_transitions. rewrite Forall_bind.
  apply Forall_iff. intros s. unfold compose.
  destruct (decide (s = [])) as [->|Hne].
  - split; [by left | intros _; constructor].
  - rewrite transitions_valid by done. split; [by right | by intros [?|?]].
Qed.

(** ** Indices counted from the end *)

Lemma resolve_wrap n c M a b :
  shape n c M → resolve M (np_wrap n a) (np_wrap c b) = resolve M a b.
Proof.
  intros [Hl Hr]. unfold resolve. rewrite Hl, np_index_wrap.
  destruct (np_index n a) as [i|]; simpl; [|done].
  destruct (M !! i) as [row|] eqn:Hrow; simpl; [|done].
  rewrite (proj1 (Forall_lookup _ _) Hr _ _ Hrow). by rewrite np_index_wrap.
Qed.

Lemma mat_incr_wrap n c M a b :
  shape n c M → mat_incr M (np_wrap n a) (np_wrap c b) = mat_incr M a b.
Proof.
  intros HM. unfold mat_incr. by rewrite !mat_update_resolve, resolve_wrap.
Qed.

Lemma apply_incrs_wrap n c ops : ∀ M,
  shape n c M →
  apply_incrs (prod_map (np_wrap n) (np_wrap c) <$> ops) M = apply_incrs ops M.
Proof.
  induction ops as [|[a b] ops IH]; intros M HM; [done|].
  unfold apply_incrs. rewrite fmap_cons. cbn [for_each prod_map fst snd].
  rewrite mat_incr_wrap by done.
  destruct (mat_incr M a b) as [M1|] eqn:E; simpl; [|done].
  apply IH. by eapply mat_update_shape.
Qed.

Lemma transitions_from_fmap (f : Z → Z) end_idx rest : ∀ prev,
  transitions_from (f end_idx) (f prev) (f <$> rest)
  = prod_map f f <$> transitions_from end_idx prev rest.
Proof.
  induction rest as [|x rest IH]; intros prev; [done|].
  rewrite fmap_cons. cbn [transitions_from].
  rewrite fmap_cons, fmap_app, IH. by destruct rest.
Qed.

Lemma corpus_transitions_fmap (f : Z → Z) start_idx end_idx
    (sentences : list (list Z)) :
  corpus_transitions (f start_idx) (f end_idx)
    ((λ s : list Z, f <$> s) <$> sentences)
  = prod_map f f <$> corpus_transitions start_idx end_idx sentences.
Proof.
  unfold corpus_transitions.
  induction sentences as [|s ss IH]; [done|].
  rewrite fmap_cons, !bind_cons, fmap_app, IH.
  by rewrite transitions_from_fmap.
Qed.

(** An index in [-V, 0) is not rejected: it is read as the index plus [V],
    for [start_idx], [end_idx] and every token alike.  The table of a corpus
    is the table of the corpus with every index so rewritten. *)
Theorem get_bigram_probs_wraps V start_idx end_idx
    (sentences : list (list Z)) smoothing :
  get_bigram_probs V start_idx end_idx sentences smoothing
  = get_bigram_probs V (np_wrap V start_idx) (np_wrap V end_idx)
      ((λ s : list Z, np_wrap V <$> s) <$> sentences) smoothing.
Proof.
  unfold get_bigram_probs. rewrite !count_sentences_transitions.
  rewrite corpus_transitions_fmap, apply_incrs_wrap; [done|].
  apply shape_np_full.
Qed.

Example get_bigram_probs_from_the_end :
  get_bigram_probs 4 0 (-3) [[-2; 3]]%Z 1 = get_bigram_probs 4 0 1 [[2; 3]]%Z 1.
Proof. eval_arrays. reflexivity. Qed.

(** ** The bigrams of a sentence *)

Lemma adjacent_pairs_padded start_idx end_idx (s : list Z) :
  adjacent_pairs (padded start_idx end_idx s)
  = zip (start_idx :: s) (s ++ [end_idx]).
Proof.
  unfold adjacent_pairs, padded.
  replace (length ([start_idx] ++ s ++ [end_idx]) - 1)
    with (length (start_idx :: s))
    by (simpl; rewrite length_app; simpl; lia).
  change ([start_idx] ++ s ++ [end_idx]) with ((start_idx :: s) ++ [end_idx]).
  by rewrite take_app_length.
Qed.

(** On a sentence that is not empty the estimator increments exactly the
    cells [(padded[k], padded[k + 1])], in this order: the pairs of tokens the
    trainer encodes as the input and the target of example [k]. *)
Theorem count_sentence_adjacent_pairs V start_idx end_idx M sentence :
  sentence ≠ [] →
  count_sentence start_idx end_idx M sentence
  = apply_incrs (adjacent_pairs (padded start_idx end_idx sentence)) M
  ∧ (in_range V start_idx → in_range V end_idx →
     Forall (in_range V) sentence →
     make_examples V start_idx end_idx sentence
     = Some (one_hot V <$> (adjacent_pairs (padded start_idx end_idx sentence)).*1,
             one_hot V <$> (adjacent_pairs (padded start_idx end_idx sentence)).*2)).
Proof.
  intros Hne. rewrite adjacent_pairs_padded. split.
  - rewrite count_sentence_transitions.
    by rewrite transitions_adjacent_pairs.
  - intros Hs He Hall. rewrite make_examples_one_hot by done.
    rewrite fst_zip, snd_zip by (rewrite length_app; simpl; lia). done.
Qed.

Lemma count_sentence_adjacent_pairs_witness :
  count_sentence 0 1 (np_full 4 4 1) [2; 3]%Z
  = apply_incrs (adjacent_pairs (padded 0 1 [2; 3]%Z)) (np_full 4 4 1)
  ∧ (in_range 4 0 → in_range 4 1 → Forall (in_range 4) [2; 3]%Z →
     make_examples 4 0 1 [2; 3]%Z
     = Some (one_hot 4 <$> (adjacent_pairs (padded 0 1 [2; 3]%Z)).*1,
             one_hot 4 <$> (adjacent_pairs (padded 0 1 [2; 3]%Z)).*2)).
Proof. apply (count_sentence_adjacent_pairs 4 0 1). discriminate. Defined.

(** ** A corpus without words *)

Lemma normalize_rows_full V (v : R) :
  v ≠ 0%R →
  normalize_rows (np_full V V v) = replicate V (replicate V (1 / INR V)%R).
Proof.
  intros Hv. unfold normalize_rows, np_full.
  rewrite fmap_replicate. destruct V as [|V]; [done|]. f_equal.
  rewrite fmap_replicate, sum_R_replicate. f_equal.
  assert (INR (S V) ≠ 0)%R by (by apply not_0_INR).
  field. split; [lra | done].
Qed.

(** A corpus in which every sentence is empty (or that has no sentence) gives
    the uniform table, whatever [start_idx] and [end_idx] are. *)
Theorem get_bigram_probs_no_words V start_idx end_idx sentences smoothing :
  smoothing ≠ 0%R →
  Forall (λ s, s = []) sentences →
  get_bigram_probs V start_idx end_idx sentences smoothing
  = Some (replicate V (replicate V (1 / INR V)%R)).
Proof.
  intros Hs Hall. unfold get_bigram_probs.
  rewrite count_sentences_transitions.
  assert (Hops : corpus_transitions start_idx end_idx sentences = []).
  { unfold corpus_transitions.
    induction Hall as [|s ss -> _ IH]; [done|]. by rewrite bind_cons, IH. }
  rewrite Hops. cbn [apply_incrs for_each mbind option_bind].
  by rewrite normalize_rows_full.
Qed.

Lemma get_bigram_probs_no_words_witness :
  get_bigram_probs 3 7 (-9) [[]; []] smoothing_script
  = Some (replicate 3 (replicate 3 (1 / INR 3)%R)).
Proof.
  apply get_bigram_probs_no_words.
  - unfold smoothing_script. lra.
  - repeat constructor.
Defined.

(** ** The add-k estimate *)

Lemma sum_R_fmap_plus {A} (f g : A → R) (l : list A) :
  sum_R ((λ x, f x + g x)%R <$> l) = (sum_R (f <$> l) + sum_R (g <$> l))%R.
Proof.
  induction l as [|x l IH]; [unfold sum_R; simpl; lra|].
  rewrite !fmap_cons, !sum_R_cons, IH. lra.
Qed.

Lemma sum_R_fmap_const {A} (c : R) (l : list A) :
  sum_R ((λ _, c) <$> l) = (INR (length l) * c)%R.
Proof.
  induction l as [|x l IH]; [unfold sum_R; simpl; lra|].
  rewrite fmap_cons, sum_R_cons, IH. cbn [length]. rewrite S_INR. lra.
Qed.

Lemma row_as_gets r c (M : Matrix) i (row : list R) :
  shape r c M → M !! i = Some row → row = (λ k, get M i k) <$> seq 0 c.
Proof.
  intros HM Hrow. destruct (shape_lookup _ _ _ _ _ HM Hrow) as [_ Hlen].
  apply list_eq. intros k. rewrite list_lookup_fmap.
  destruct (decide (k < c)) as [Hk|Hk].
  - rewrite lookup_seq_lt by done. simpl.
    destruct (lookup_lt_is_Some_2 row k) as [x Hx]; [lia|].
    by rewrite Hx, (get_lookup _ _ _ _ _ Hrow Hx).
  - rewrite lookup_seq_ge by lia. simpl. apply lookup_ge_None. lia.
Qed.

Lemma sum_hits_row V ops i :
  ops_in_range V ops →
  sum_R ((λ k, INR (hits ops i k)) <$> seq 0 V) = INR (row_hits ops i).
Proof.
  induction 1 as [|rc ops [_ Hc] _ IH].
  - simpl. rewrite (sum_R_fmap_const 0%R). lra.
  - cbn [hits row_hits].
    rewrite (list_fmap_ext _
      (λ k, INR (if decide (Z.to_nat rc.1 = i ∧ Z.to_nat rc.2 = k)
                 then 1 else 0) + INR (hits ops i k))%R (seq 0 V)
      ltac:(intros; apply plus_INR)).
    rewrite (sum_R_fmap_plus
      (λ k, INR (if decide (Z.to_nat rc.1 = i ∧ Z.to_nat rc.2 = k)
                 then 1 else 0))), IH, plus_INR.
    f_equal. destruct (decide (Z.to_nat rc.1 = i)) as [Hr|Hr].
    + rewrite (list_fmap_ext _
        (λ k, if decide (k = Z.to_nat rc.2) then 1%R else 0%R) (seq 0 V)).
      * rewrite sum_R_indicator, decide_True; [simpl; lra|].
        unfold in_range in Hc. lia.
      * intros _ k _.
        destruct (decide (k = Z.to_nat rc.2)) as [->|Hn].
        -- rewrite decide_True by done. simpl. lra.
        -- rewrite decide_False by (intros [_ ?]; by apply Hn). done.
    + rewrite (list_fmap_ext _ (λ _, 0%R) (seq 0 V)).
      * rewrite sum_R_fmap_const. simpl. lra.
      * intros _ k _. simpl. rewrite decide_False by tauto. done.
Qed.

(** The table is the add-k estimate: entry [(i, k)] is the smoothing constant
    plus the number of transitions from [i] to [k], divided by [V] times the
    smoothing constant plus the number of transitions from [i]. *)
Theorem bigram_prob_formula V start_idx end_idx sentences smoothing :
  in_range V start_idx → in_range V end_idx →
  (0 < smoothing)%R →
  Forall (Forall (in_range V)) sentences →
  ∃ P, get_bigram_probs V start_idx end_idx sentences smoothing = Some P
    ∧ ∀ i k, i < V → k < V →
        get P i k
        = ((smoothing
            + INR (hits (corpus_transitions start_idx end_idx sentences) i k))
           / (INR V * smoothing
              + INR (row_hits (corpus_transitions start_idx end_idx sentences)
                              i)))%R.
Proof.
  intros Hstart Hend Hs Hall.
  destruct (counts_in_range V start_idx end_idx Hstart Hend sentences smoothing
              Hall) as (M & HM & Hsh & Hget).
  exists (normalize_rows M). unfold get_bigram_probs. rewrite HM.
  split; [done|]. intros i k Hi Hk.
  destruct (lookup_lt_is_Some_2 M i) as [row Hrow]; [by rewrite (proj1 Hsh)|].
  destruct (shape_lookup _ _ _ _ _ Hsh Hrow) as [_ Hlen].
  destruct (lookup_lt_is_Some_2 row k) as [x Hx]; [lia|].
  assert (Hops : ops_in_range V (corpus_transitions start_idx end_idx sentences)).
  { apply corpus_transitions_Forall; try done.
    eapply Forall_impl; [exact Hall|]. intros s Hs'.
    eapply Forall_impl; [exact Hs'|]. by intros t Ht. }
  assert (Hsum : sum_R row
                 = (INR V * smoothing
                    + INR (row_hits (corpus_transitions start_idx end_idx
                                       sentences) i))%R).
  { rewrite (row_as_gets V V M i row Hsh Hrow).
    rewrite (list_fmap_ext _
      (λ k, 1 * smoothing
            + INR (hits (corpus_transitions start_idx end_idx sentences) i k))%R
      (seq 0 V)).
    - rewrite (sum_R_fmap_plus (λ _, 1 * smoothing)%R), sum_R_fmap_const,
        sum_hits_row, length_seq by done. lra.
    - intros j k' Hk'. apply lookup_seq in Hk' as [-> ?]. by apply Hget. }
  unfold get, normalize_rows. rewrite list_lookup_fmap, Hrow. simpl.
  rewrite list_lookup_fmap, Hx. simpl.
  rewrite Hsum, <- (get_lookup _ _ _ _ _ Hrow Hx), Hget by done.
  f_equal. lra.
Qed.

Lemma bigram_prob_formula_witness :
  ∃ P, get_bigram_probs 4 0 1 [[2; 3]]%Z 1 = Some P
    ∧ ∀ i k, i < 4 → k < 4 →
        get P i k
        = ((1 + INR (hits (corpus_transitions 0 1 [[2; 3]]%Z) i k))
           / (INR 4 * 1
              + INR (row_hits (corpus_transitions 0 1 [[2; 3]]%Z) i)))%R.
Proof.
  apply (bigram_prob_formula 4 0 1).
  - solve_in_range.
  - solve_in_range.
  - lra.
  - repeat constructor; solve_in_range.
Defined.

(** * Further properties of the trainer *)

(** ** One-hot rows select *)

Lemma sum_R_zip_zero_l (k : list R) : ∀ n,
  sum_R (zip_with Rmult (replicate n 0%R) k) = 0%R.
Proof.
  induction k as [|x k IH]; intros [|n]; try done.
  cbn [replicate zip_with]. rewrite sum_R_cons, IH. lra.
Qed.

Lemma one_hot_split V tok :
  in_range V tok →
  one_hot V tok
  = replicate (Z.to_nat tok) 0%R ++ 1%R :: replicate (V - S (Z.to_nat tok)) 0%R.
Proof.
  intros Hin. rewrite <- one_hot_alter by done.
  assert (Ha : Z.to_nat tok < V) by (unfold in_range in Hin; lia).
  replace V with (Z.to_nat tok + S (V - S (Z.to_nat tok))) at 1 by lia.
  rewrite replicate_add. cbn [replicate].
  rewrite <- (Nat.add_0_r (Z.to_nat tok)) at 1.
  rewrite <- (length_replicate (Z.to_nat tok) 0%R) at 1.
  by rewrite alter_app_r.
Qed.

Lemma sum_one_hot_select V tok (col : list R) :
  length col = V → in_range V tok →
  sum_R (zip_with Rmult (one_hot V tok) col) = default 0%R (col !! Z.to_nat tok).
Proof.
  intros Hlen Hin.
  assert (Ha : Z.to_nat tok < length col) by (unfold in_range in Hin; lia).
  destruct (lookup_lt_is_Some_2 col _ Ha) as [x Hx].
  rewrite Hx. simpl. rewrite one_hot_split by done.
  rewrite <- (take_drop_middle col _ x Hx) at 1.
  rewrite zip_with_app
    by (rewrite length_replicate, length_take; lia).
  cbn [zip_with]. rewrite sum_R_app, sum_R_cons, !sum_R_zip_zero_l. lra.
Qed.

Lemma row_of_length r c (M : Matrix) t :
  shape r c M → in_range r t → length (row_of M t) = c.
Proof.
  intros HM Hin. unfold row_of.
  destruct (lookup_lt_is_Some_2 M (Z.to_nat t)) as [row Hrow];
    [rewrite (proj1 HM); unfold in_range in Hin; lia|].
  rewrite Hrow. simpl. by destruct (shape_lookup _ _ _ _ _ HM Hrow).
Qed.

Lemma np_dot_one_hot_rows V C (Wm : Matrix) (toks : list Z) :
  shape V C Wm → Forall (in_range V) toks →
  np_dot (one_hot V <$> toks) Wm = Some (row_of Wm <$> toks).
Proof.
  intros HW Hall.
  rewrite np_dot_value.
  2:{ apply Forall_fmap, Forall_true. intros t. simpl.
      rewrite one_hot_length. symmetry. apply HW. }
  f_equal. rewrite <- list_fmap_compose.
  apply list_fmap_ext. intros i t Ht. simpl.
  assert (Hin : in_range V t) by exact (proj1 (Forall_lookup _ _) Hall _ _ Ht).
  assert (HV : 0 < V) by (unfold in_range in Hin; lia).
  rewrite (ncols_shape V C Wm HV HW).
  unfold row_of.
  destruct (lookup_lt_is_Some_2 Wm (Z.to_nat t)) as [row Hrow];
    [rewrite (proj1 HW); unfold in_range in Hin; lia|].
  rewrite Hrow. simpl. rewrite (row_as_gets V C Wm _ row HW Hrow).
  apply list_fmap_ext. intros _ k _.
  rewrite sum_one_hot_select; [|unfold column; rewrite length_fmap; apply HW|done].
  apply column_lookup. rewrite (proj1 HW). unfold in_range in Hin. lia.
Qed.

(** The product of one-hot rows with a weight matrix is a lookup: row [k] of
    the result is the row of the matrix at token [k]. *)
Theorem np_dot_one_hot V C (Wm : Matrix) (toks : list Z) :
  shape V C Wm → Forall (in_range V) toks →
  np_dot (one_hot V <$> toks) Wm = Some (row_of Wm <$> toks).
Proof. apply np_dot_one_hot_rows. Qed.

Lemma np_dot_one_hot_witness :
  np_dot (one_hot 2 <$> [1; 0; 1]%Z) [[1; 2; 3]; [4; 5; 6]]%R
  = Some (row_of [[1; 2; 3]; [4; 5; 6]]%R <$> [1; 0; 1]%Z).
Proof.
  apply (np_dot_one_hot 2 3).
  - split; [reflexivity | repeat constructor].
  - repeat constructor; solve_in_range.
Defined.

(** ** Softmax *)

Lemma shape_mat_map f r c M : shape r c M → shape r c (mat_map f M).
Proof.
  intros [Hl Hr]. unfold mat_map. split; [by rewrite length_fmap|].
  apply Forall_fmap. eapply Forall_impl; [exact Hr|].
  intros row Hrow. simpl. by rewrite length_fmap.
Qed.

Lemma softmax_row_plain_ln (row : list R) :
  stochastic row → softmax_row_plain (ln <$> row) = row.
Proof.
  intros [Hsum Hpos]. unfold softmax_row_plain.
  assert (Hexp : exp <$> (ln <$> row) = row).
  { rewrite <- list_fmap_compose. rewrite <- (list_fmap_id row) at 2.
    apply list_fmap_ext. intros i x Hx. simpl.
    apply exp_ln. exact (proj1 (Forall_lookup _ _) Hpos _ _ Hx). }
  rewrite Hexp, Hsum, <- list_fmap_compose.
  rewrite <- (list_fmap_id row) at 2.
  apply list_fmap_ext. intros i x Hx. simpl.
  rewrite exp_ln by exact (proj1 (Forall_lookup _ _) Hpos _ _ Hx). lra.
Qed.

(** ** The loss *)

Lemma row_of_mat_map f (M : Matrix) t :
  row_of (mat_map f M) t = f <$> row_of M t.
Proof.
  unfold row_of, mat_map. rewrite list_lookup_fmap.
  by destruct (M !! Z.to_nat t).
Qed.

Lemma true_prob_ln V t (row : list R) :
  length row = V → in_range V t →
  default 0%R ((ln <$> row) !! Z.to_nat t) = ln (default 0%R (row !! Z.to_nat t)).
Proof.
  intros Hlen Hin. rewrite list_lookup_fmap.
  destruct (lookup_lt_is_Some_2 row (Z.to_nat t)) as [x Hx];
    [unfold in_range in Hin; lia|].
  by rewrite Hx.
Qed.

Lemma one_hot_row_sums V (toks : list Z) : ∀ predictions : Matrix,
  Forall (in_range V) toks →
  Forall (λ row : list R, length row = V) predictions →
  sum_R <$> mat_zip Rmult (one_hot V <$> toks) (mat_map ln predictions)
  = ln <$> true_probs toks predictions.
Proof.
  unfold mat_zip, mat_map, true_probs.
  induction toks as [|t toks IH]; intros [|row predictions] Htoks Hpred;
    try done.
  apply Forall_cons in Htoks as [Ht Htoks].
  apply Forall_cons in Hpred as [Hrow Hpred].
  rewrite !fmap_cons. cbn [zip_with]. rewrite !fmap_cons.
  f_equal; [|by apply IH].
  rewrite (sum_one_hot_select V t) by (by rewrite ?length_fmap).
  by apply (true_prob_ln V).
Qed.

Lemma cross_entropy_true_probs V (toks : list Z) (predictions : Matrix) n :
  Forall (in_range V) toks →
  Forall (λ row : list R, length row = V) predictions →
  cross_entropy (one_hot V <$> toks) predictions n
  = (- sum_R (ln <$> true_probs toks predictions) / INR n)%R.
Proof.
  intros Htoks Hpred. unfold cross_entropy.
  by rewrite (one_hot_row_sums V).
Qed.

(** With one-hot targets and positive predictions, one row for each target,
    the cross-entropy is the mean, over the rows, of the negative logarithm
    of the probability predicted for the target token.  (Where a prediction
    is 0 or the numbers of rows differ, [cross_entropy] is not the program's
    expression.) *)
Theorem cross_entropy_one_hot V (toks : list Z) (predictions : Matrix) n :
  0 < n →
  Forall (in_range V) toks →
  length predictions = length toks →
  Forall (λ row : list R, length row = V ∧ Forall (λ p, 0 < p)%R row)
         predictions →
  cross_entropy (one_hot V <$> toks) predictions n
  = (- sum_R (ln <$> true_probs toks predictions) / INR n)%R.
Proof.
  intros _ Htoks _ Hpred. apply cross_entropy_true_probs; [done|].
  eapply Forall_impl; [exact Hpred|]. by intros row [? _].
Qed.

Lemma cross_entropy_one_hot_witness :
  cross_entropy (one_hot 2 <$> [1; 0]%Z) [[1/4; 3/4]; [1/2; 1/2]]%R 2
  = (- sum_R (ln <$> true_probs [1; 0]%Z [[1/4; 3/4]; [1/2; 1/2]]%R)
     / INR 2)%R.
Proof.
  apply cross_entropy_one_hot.
  - lia.
  - repeat constructor; solve_in_range.
  - reflexivity.
  - repeat constructor; lra.
Defined.

(** ** The output of a step *)

Lemma stochastic_softmax_row (row : list R) :
  row ≠ [] → stochastic (softmax_row_plain row).
Proof. apply softmax_row_plain_stochastic. Qed.

Lemma softmax_row_plain_length (row : list R) :
  length (softmax_row_plain row) = length row.
Proof. unfold softmax_row_plain. by rewrite length_fmap. Qed.

Section StepValue.
Variables (V : nat) (start_idx end_idx : Z).
Hypothesis Hstart : in_range V start_idx.
Hypothesis Hend : in_range V end_idx.

Lemma predict_rows (Wm : Matrix) (toks : list Z) :
  shape V V Wm → toks ≠ [] → Forall (in_range V) toks →
  predict Wm (one_hot V <$> toks)
  = Some (softmax_row_plain <$> (row_of Wm <$> toks)).
Proof.
  intros HW Hne Hall. assert (HV : 0 < V) by (unfold in_range in Hstart; lia).
  unfold predict. rewrite (np_dot_one_hot_rows V V) by done.
  cbn [mbind option_bind].
  apply (softmax_plain (length toks) V);
    [destruct toks; [done | simpl; lia] | done |].
  split; [by rewrite length_fmap|].
  apply Forall_fmap. eapply Forall_impl; [exact Hall|].
  intros t Ht. simpl. by apply (row_of_length V V).
Qed.

Lemma sgd_step_value lr (W0 : Matrix) raw :
  shape V V W0 → Forall (in_range V) raw →
  let inputs := one_hot V <$> (start_idx :: raw) in
  let targets := one_hot V <$> (raw ++ [end_idx]) in
  let predictions := softmax_row_plain <$> (row_of W0 <$> (start_idx :: raw)) in
  sgd_step V start_idx end_idx lr W0 raw
  = Some (StepOut
            (mat_zip Rminus W0
               (mat_map (λ g, lr * g)%R
                  (gradient V inputs (mat_zip Rminus predictions targets))))
            (cross_entropy targets predictions (length raw + 1))
            predictions inputs targets).
Proof.
  intros HW Hraw inputs targets predictions.
  assert (HV : 0 < V) by (unfold in_range in Hstart; lia).
  unfold sgd_step.
  rewrite (make_examples_one_hot V start_idx end_idx Hstart Hend raw Hraw).
  cbn [mbind option_bind fst snd].
  rewrite predict_rows by (done || by apply Forall_cons).
  cbn [mbind option_bind]. fold inputs targets predictions.
  assert (Hall : Forall (in_range V) (start_idx :: raw))
    by (by apply Forall_cons).
  assert (Hpl : Forall (λ row : list R, length row = V) predictions).
  { unfold predictions. apply Forall_fmap, Forall_fmap.
    eapply Forall_impl; [exact Hall|]. intros t Ht. unfold compose.
    by rewrite softmax_row_plain_length, (row_of_length V V). }
  assert (Htl : Forall (λ row : list R, length row = V) targets).
  { unfold targets. apply Forall_fmap, Forall_true. intros t.
    apply one_hot_length. }
  assert (HD : shape (length raw + 1) V (mat_zip Rminus predictions targets)).
  { unfold mat_zip. split.
    - unfold predictions, targets.
      rewrite length_zip_with, !length_fmap, length_app. cbn [length]. lia.
    - apply Forall_lookup. intros i row Hrow.
      apply lookup_zip_with_Some in Hrow as (p & t & -> & Hp & Ht).
      rewrite length_zip_with.
      rewrite (proj1 (Forall_lookup _ _) Hpl _ _ Hp).
      rewrite (proj1 (Forall_lookup _ _) Htl _ _ Ht). lia. }
  assert (Hin : shape (length raw + 1) V inputs).
  { unfold inputs. split; [rewrite length_fmap; simpl; lia|].
    apply Forall_fmap, Forall_true. intros t. apply one_hot_length. }
  rewrite np_dot_value.
  2:{ unfold transpose. apply Forall_fmap, Forall_true. intros k.
      unfold compose, column. rewrite length_fmap.
      by rewrite (proj1 Hin), (proj1 HD). }
  cbn [mbind option_bind].
  rewrite (ncols_shape (length raw + 1) V _ ltac:(lia) HD).
  unfold transpose. rewrite (ncols_shape (length raw + 1) V _ ltac:(lia) Hin).
  rewrite <- list_fmap_compose.
  replace (length (padded start_idx end_idx raw) - 1) with (length raw + 1)
    by (unfold padded; rewrite !length_app; simpl; lia).
  done.
Qed.
End StepValue.

(** ** What a step does to the weights *)

Lemma shape_mat_zip f r c (A B : Matrix) :
  shape r c A → shape r c B → shape r c (mat_zip f A B).
Proof.
  intros [HlA HrA] [HlB HrB]. unfold mat_zip. split.
  - rewrite length_zip_with. lia.
  - apply Forall_lookup. intros i row Hrow.
    apply lookup_zip_with_Some in Hrow as (a & b & -> & Ha & Hb).
    rewrite length_zip_with.
    rewrite (proj1 (Forall_lookup _ _) HrA _ _ Ha).
    rewrite (proj1 (Forall_lookup _ _) HrB _ _ Hb). lia.
Qed.

Lemma shape_gradient V inputs D : shape V V (gradient V inputs D).
Proof.
  unfold gradient. split; [by rewrite length_fmap, length_seq|].
  apply Forall_fmap, Forall_true. intros i. simpl.
  by rewrite length_fmap, length_seq.
Qed.

Lemma gradient_row V inputs D i :
  i < V →
  gradient V inputs D !! i
  = Some ((λ k, sum_R (zip_with Rmult (column i inputs) (column k D)))
            <$> seq 0 V).
Proof.
  intros Hi. unfold gradient. rewrite list_lookup_fmap, lookup_seq_lt by done.
  done.
Qed.

Lemma column_one_hot V (toks : list Z) i :
  column i (one_hot V <$> toks)
  = (λ t, if decide (i < V ∧ Z.of_nat i = t) then 1%R else 0%R) <$> toks.
Proof.
  unfold column. rewrite <- list_fmap_compose.
  apply list_fmap_ext. intros _ t _. simpl. unfold one_hot.
  rewrite list_lookup_fmap.
  destruct (decide (i < V)) as [Hi|Hi].
  - rewrite lookup_seq_lt by done. simpl.
    destruct (decide (Z.of_nat i = t)).
    + by rewrite decide_True.
    + by rewrite decide_False by tauto.
  - rewrite lookup_seq_ge by lia. simpl. by rewrite decide_False by tauto.
Qed.

Lemma out_W_row lr (W0 G : Matrix) i (w g : list R) :
  W0 !! i = Some w → G !! i = Some g →
  mat_zip Rminus W0 (mat_map (λ x, lr * x)%R G) !! i
  = Some (zip_with Rminus w ((λ x, lr * x)%R <$> g)).
Proof.
  intros Hw Hg. unfold mat_zip, mat_map.
  apply lookup_zip_with_Some. exists w, ((λ x, lr * x)%R <$> g).
  split; [done|]. split; [done|]. by rewrite list_lookup_fmap, Hg.
Qed.

Lemma sum_R_nonneg (l : list R) : Forall (λ x, 0 < x)%R l → (0 <= sum_R l)%R.
Proof.
  induction 1 as [|x l Hx _ IH]; [unfold sum_R; simpl; lra|].
  rewrite sum_R_cons. lra.
Qed.

(** An entry of a probability row is at most 1, and below 1 when the row has
    another entry. *)
Lemma stochastic_entry (row : list R) k p :
  stochastic row → row !! k = Some p →
  (0 < p <= 1)%R ∧ (2 ≤ length row → (p < 1)%R).
Proof.
  intros [Hsum Hpos] Hk.
  assert (Hp : (0 < p)%R) by exact (proj1 (Forall_lookup _ _) Hpos _ _ Hk).
  pose proof (take_drop_middle row k p Hk) as Hsplit.
  rewrite <- Hsplit in Hsum, Hpos.
  rewrite sum_R_app, sum_R_cons in Hsum.
  apply Forall_app in Hpos as [H1 H2]. apply Forall_cons in H2 as [_ H2].
  pose proof (sum_R_nonneg _ H1). pose proof (sum_R_nonneg _ H2).
  split; [lra|]. intros Hlen.
  assert (Hne : take k row ≠ [] ∨ drop (S k) row ≠ []).
  { rewrite <- Hsplit in Hlen. rewrite length_app in Hlen. simpl in Hlen.
    destruct (take k row); [right|by left].
    destruct (drop (S k) row); [simpl in Hlen; lia | done]. }
  destruct Hne as [Hne|Hne].
  - pose proof (sum_R_pos _ Hne H1). lra.
  - pose proof (sum_R_pos _ Hne H2). lra.
Qed.

Lemma sum_R_ln_nonpos (l : list R) :
  Forall (λ p, 0 < p <= 1)%R l → (sum_R (ln <$> l) <= 0)%R.
Proof.
  induction 1 as [|p l [Hp0 Hp1] _ IH]; [unfold sum_R; simpl; lra|].
  rewrite fmap_cons, sum_R_cons.
  assert (ln p <= 0)%R.
  { destruct Hp1 as [Hlt| ->]; [|rewrite ln_1; lra].
    rewrite <- ln_1. left. by apply ln_increasing. }
  lra.
Qed.

Lemma true_probs_Forall V (Q : R → Prop) (toks : list Z) :
  ∀ predictions : Matrix,
  Forall (in_range V) toks →
  Forall (λ row : list R, length row = V ∧ Forall Q row) predictions →
  Forall Q (true_probs toks predictions).
Proof.
  unfold true_probs.
  induction toks as [|t toks IH]; intros [|row predictions] Ht Hp;
    try (by constructor).
  apply Forall_cons in Ht as [Hin Ht].
  apply Forall_cons in Hp as [[Hlen HQ] Hp].
  cbn [zip_with]. apply Forall_cons. split; [|by apply IH].
  destruct (lookup_lt_is_Some_2 row (Z.to_nat t)) as [x Hx];
    [unfold in_range in Hin; lia|].
  rewrite Hx. simpl. exact (proj1 (Forall_lookup _ _) HQ _ _ Hx).
Qed.

Lemma true_probs_row_of (P : Matrix) (ins : list Z) : ∀ toks : list Z,
  true_probs toks (row_of P <$> ins)
  = (λ ab : Z * Z, get P (Z.to_nat ab.1) (Z.to_nat ab.2)) <$> zip ins toks.
Proof.
  unfold true_probs.
  induction ins as [|a ins IH]; intros [|b toks]; try done.
  rewrite fmap_cons. cbn [zip zip_with]. rewrite fmap_cons. f_equal.
  - unfold row_of, get. simpl. by destruct (P !! Z.to_nat a).
  - apply IH.
Qed.

Section StepTheorems.
Variables (V : nat) (start_idx end_idx : Z).
Hypothesis Hstart : in_range V start_idx.
Hypothesis Hend : in_range V end_idx.

Lemma predictions_stochastic (W0 : Matrix) (toks : list Z) :
  shape V V W0 → Forall (in_range V) toks →
  Forall (λ row : list R, length row = V ∧ stochastic row)
         (softmax_row_plain <$> (row_of W0 <$> toks)).
Proof.
  intros HW Hall. assert (HV : 0 < V) by (unfold in_range in Hstart; lia).
  apply Forall_fmap, Forall_fmap. eapply Forall_impl; [exact Hall|].
  intros t Ht. unfold compose.
  pose proof (row_of_length V V W0 t HW Ht) as Hlen.
  split; [by rewrite softmax_row_plain_length|].
  apply stochastic_softmax_row. intros Hnil. rewrite Hnil in Hlen.
  simpl in Hlen. lia.
Qed.

(** A step raises nothing and keeps the shapes: the weight matrix stays V×V
    and the predictions have one row of length [V] for each of the [n + 1]
    examples. *)
Theorem sgd_step_shapes lr (W0 : Matrix) raw :
  shape V V W0 → Forall (in_range V) raw →
  ∃ out, sgd_step V start_idx end_idx lr W0 raw = Some out
    ∧ shape V V (out_W out)
    ∧ shape (length raw + 1) V (out_predictions out).
Proof.
  intros HW Hraw. eexists.
  split; [by apply sgd_step_value|]. cbn [out_W out_predictions].
  assert (Hall : Forall (in_range V) (start_idx :: raw))
    by (by apply Forall_cons).
  pose proof (predictions_stochastic W0 _ HW Hall) as Hp.
  split.
  - apply shape_mat_zip; [done|]. apply shape_mat_map, shape_gradient.
  - split; [rewrite !length_fmap; simpl; lia|].
    eapply Forall_impl; [exact Hp|]. by intros row [? ?].
Qed.

(** A step changes only the rows of the tokens that occur as inputs, that is
    in [[start_idx] + sentence]: every other row of the weight matrix is left
    as it was.  (For moderate weights: where a row of logits underflows, the
    nan of its predictions reaches every row through [inputs.T.dot].) *)
Theorem sgd_step_other_rows lr (W0 : Matrix) raw :
  shape V V W0 → moderate_weights W0 → Forall (in_range V) raw →
  ∃ out, sgd_step V start_idx end_idx lr W0 raw = Some out
    ∧ ∀ i, i < V → Forall (λ t, Z.of_nat i ≠ t) (start_idx :: raw) →
        out_W out !! i = W0 !! i.
Proof.
  intros HW _ Hraw. eexists.
  split; [by apply sgd_step_value|]. cbn [out_W]. intros i Hi Hnot.
  destruct (lookup_lt_is_Some_2 W0 i) as [w Hw]; [by rewrite (proj1 HW)|].
  destruct (shape_lookup _ _ _ _ _ HW Hw) as [_ Hwl].
  rewrite (out_W_row lr W0 _ i w _ Hw (gradient_row V _ _ i Hi)), Hw.
  f_equal. rewrite <- list_fmap_compose.
  rewrite (const_fmap _ (seq 0 V) 0%R).
  - rewrite length_seq, zip_with_replicate_r_eq by done.
    rewrite <- (list_fmap_id w) at 2.
    apply list_fmap_ext. intros _ x _. unfold flip. simpl. lra.
  - intros _ k _. unfold compose.
    rewrite column_one_hot.
    rewrite (const_fmap _ (start_idx :: raw) 0%R).
    + rewrite sum_R_zip_zero_l. lra.
    + intros n t Ht. rewrite decide_False; [done|]. intros [_ Heq].
      exact (proj1 (Forall_lookup _ _) Hnot _ _ Ht Heq).
Qed.

(** The loss of a step is never negative.  (For moderate weights: where a
    row of logits underflows, the program's loss is nan.) *)
Theorem sgd_step_loss_nonneg lr (W0 : Matrix) raw :
  shape V V W0 → moderate_weights W0 → Forall (in_range V) raw →
  ∃ out, sgd_step V start_idx end_idx lr W0 raw = Some out
    ∧ (0 <= out_loss out)%R.
Proof.
  intros HW _ Hraw. eexists.
  split; [by apply sgd_step_value|]. cbn [out_loss].
  assert (Hall : Forall (in_range V) (start_idx :: raw))
    by (by apply Forall_cons).
  assert (Htoks : Forall (in_range V) (raw ++ [end_idx]))
    by (apply Forall_app; split; [done | by apply Forall_singleton]).
  pose proof (predictions_stochastic W0 _ HW Hall) as Hp.
  rewrite (cross_entropy_true_probs V) by
    (done || (eapply Forall_impl; [exact Hp|]; by intros row [? ?])).
  set (probs := true_probs _ _).
  assert (Hn : (0 < INR (length raw + 1))%R) by (apply lt_0_INR; lia).
  assert (Hle : Forall (λ p, 0 < p <= 1)%R probs).
  { apply (true_probs_Forall V); [done|].
    eapply Forall_impl; [exact Hp|]. intros row [Hl Hs]. split; [done|].
    apply Forall_lookup. intros k p Hk.
    by destruct (stochastic_entry row k p Hs Hk). }
  pose proof (sum_R_ln_nonpos probs Hle).
  apply Rmult_le_pos; [lra | left; by apply Rinv_0_lt_compat].
Qed.

(** ** The frozen bigram model *)

Lemma predict_ln_rows (P : Matrix) (toks : list Z) :
  shape V V P → Forall stochastic P →
  toks ≠ [] → Forall (in_range V) toks →
  predict (mat_map ln P) (one_hot V <$> toks) = Some (row_of P <$> toks).
Proof.
  intros HP Hst Hne Hall.
  rewrite (predict_rows V start_idx Hstart) by (done || by apply shape_mat_map).
  f_equal. rewrite <- !list_fmap_compose.
  apply list_fmap_ext. intros i t Ht. simpl.
  rewrite row_of_mat_map. apply softmax_row_plain_ln.
  assert (Hin : in_range V t) by exact (proj1 (Forall_lookup _ _) Hall _ _ Ht).
  unfold row_of.
  destruct (lookup_lt_is_Some_2 P (Z.to_nat t)) as [row Hrow];
    [rewrite (proj1 HP); unfold in_range in Hin; lia|].
  rewrite Hrow. simpl. exact (proj1 (Forall_lookup _ _) Hst _ _ Hrow).
Qed.

(** In the first epoch, with [W_bigram = np.log(P)] for a table [P] of
    probability rows, the loop records as bigram loss of a sentence the mean
    of [-ln P[a, b]] over the adjacent pairs [(a, b)] of the padded
    sentence. *)
Theorem loop_body_bigram_loss lr (P : Matrix) st raw :
  shape V V P → Forall stochastic P →
  shape V V (W st) → Forall (in_range V) raw →
  ∃ st', loop_body V start_idx end_idx lr (mat_map ln P) 0 st raw = Some st'
    ∧ bigram_losses st'
      = bigram_losses st ++
        [(- sum_R ((λ ab : Z * Z, ln (get P (Z.to_nat ab.1) (Z.to_nat ab.2)))
                     <$> adjacent_pairs (padded start_idx end_idx raw))
          / INR (length raw + 1))%R].
Proof.
  intros HP Hst HW Hraw. unfold loop_body.
  rewrite (sgd_step_value V start_idx end_idx Hstart Hend lr (W st) raw HW Hraw).
  cbn [mbind option_bind out_inputs out_targets out_W out_loss].
  rewrite decide_True by done.
  rewrite predict_ln_rows by (done || by apply Forall_cons).
  cbn [mbind option_bind]. eexists. split; [reflexivity|].
  cbn [bigram_losses]. f_equal. f_equal.
  replace (length (padded start_idx end_idx raw) - 1) with (length raw + 1)
    by (unfold padded; rewrite !length_app; simpl; lia).
  rewrite (cross_entropy_true_probs V).
  - rewrite true_probs_row_of, adjacent_pairs_padded.
    by rewrite <- list_fmap_compose.
  - apply Forall_app; split; [done | by apply Forall_singleton].
  - apply Forall_fmap, Forall_cons. split.
    + simpl. by apply (row_of_length V V).
    + eapply Forall_impl; [exact Hraw|]. intros t Ht. simpl.
      by apply (row_of_length V V).
Qed.
End StepTheorems.

Lemma sgd_step_shapes_witness :
  ∃ out, sgd_step 4 0 1 lr_script (np_zeros 4 4) [2; 3]%Z = Some out
    ∧ shape 4 4 (out_W out)
    ∧ shape (length [2; 3]%Z + 1) 4 (out_predictions out).
Proof.
  apply (sgd_step_shapes 4 0 1).
  - solve_in_range.
  - solve_in_range.
  - apply shape_np_zeros.
  - repeat constructor; solve_in_range.
Defined.

Lemma sgd_step_other_rows_witness :
  ∃ out, sgd_step 4 0 1 lr_script (np_zeros 4 4) [2; 3]%Z = Some out
    ∧ ∀ i, i < 4 → Forall (λ t, Z.of_nat i ≠ t) [0; 2; 3]%Z →
        out_W out !! i = np_zeros 4 4 !! i.
Proof.
  apply (sgd_step_other_rows 4 0 1).
  - solve_in_range.
  - solve_in_range.
  - apply shape_np_zeros.
  - repeat constructor; rewrite Rabs_R0; lra.
  - repeat constructor; solve_in_range.
Defined.

Lemma sgd_step_loss_nonneg_witness :
  ∃ out, sgd_step 4 0 1 lr_script (np_zeros 4 4) [2; 3]%Z = Some out
    ∧ (0 <= out_loss out)%R.
Proof.
  apply (sgd_step_loss_nonneg 4 0 1).
  - solve_in_range.
  - solve_in_range.
  - apply shape_np_zeros.
  - repeat constructor; rewrite Rabs_R0; lra.
  - repeat constructor; solve_in_range.
Defined.

Lemma loop_body_bigram_loss_witness :
  ∃ st', loop_body 2 0 1 lr_script (mat_map ln [[1/4; 3/4]; [1/2; 1/2]]%R) 0
           (TrainState (np_zeros 2 2) [] [] 0) [1]%Z = Some st'
    ∧ bigram_losses st'
      = [] ++
        [(- sum_R ((λ ab : Z * Z,
                      ln (get [[1/4; 3/4]; [1/2; 1/2]]%R
                            (Z.to_nat ab.1) (Z.to_nat ab.2)))
                     <$> adjacent_pairs (padded 0 1 [1]%Z))
          / INR (length [1]%Z + 1))%R].
Proof.
  apply (loop_body_bigram_loss 2 0 1 ltac:(solve_in_range) ltac:(solve_in_range)
           lr_script [[1/4; 3/4]; [1/2; 1/2]]%R
           (TrainState (np_zeros 2 2) [] [] 0) [1]%Z).
  - split; [reflexivity | repeat constructor].
  - repeat constructor; unfold sum_R; simpl; lra.
  - apply shape_np_zeros.
  - repeat constructor; solve_in_range.
Defined.

(** * Further properties of [smoothed_loss] *)

Lemma smoothed_loop_zero (x : list R) n : ∀ s last,
  s + n ≤ length x →
  ∃ last',
    for_each (smoothed_body 0 x) (seq s n)
             (take s x ++ replicate (length x - s) 0%R, last)
    = Some (take (s + n) x ++ replicate (length x - (s + n)) 0%R, last').
Proof.
  induction n as [|n IH]; intros s last Hs.
  - exists last. by rewrite Nat.add_0_r.
  - cbn [seq for_each].
    destruct (lookup_lt_is_Some_2 x s) as [xt Hxt]; [lia|].
    rewrite (smoothed_body_at _ _ _ _ _ _ Hxt). cbn [mbind option_bind].
    assert (Hval : ((0 * last + (1 - 0) * xt) / (1 - 0 ^ (s + 1)) = xt)%R).
    { rewrite Nat.add_1_r. simpl. field; lra. }
    rewrite Hval.
    assert (Hy : <[s := xt]> (take s x ++ replicate (length x - s) 0%R)
                 = take (S s) x ++ replicate (length x - S s) 0%R).
    { replace (length x - s) with (S (length x - S s)) by lia.
      cbn [replicate].
      rewrite insert_app_r_alt by (rewrite length_take; lia).
      rewrite length_take. replace (s - s `min` length x) with 0 by lia.
      cbn [insert list_insert].
      by rewrite (take_S_r x s xt Hxt), <- app_assoc. }
    rewrite Hy.
    destruct (IH (S s) (0 * last + (1 - 0) * xt)%R) as [last' Hrun]; [lia|].
    exists last'. rewrite Hrun. by replace (s + S n) with (S s + n) by lia.
Qed.

(** With decay 0 nothing is smoothed: the series is returned as it is. *)
Theorem smoothed_loss_decay_zero (x : list R) : smoothed_loss x 0 = Some x.
Proof.
  unfold smoothed_loss.
  destruct (smoothed_loop_zero x (length x) 0 0%R) as [last Hrun]; [lia|].
  rewrite take_0, Nat.sub_0_r in Hrun. simpl in Hrun. rewrite Hrun. simpl.
  by rewrite take_ge, Nat.sub_diag, app_nil_r.
Qed.

(** * The training loop *)

Section TrainingFacts.
Variables (V : nat) (start_idx end_idx : Z).
Context {rng : Type}.
Variable shuffle : rng → list (list Z) → list (list Z) * rng.
Hypothesis Hstart : in_range V start_idx.
Hypothesis Hend : in_range V end_idx.
Hypothesis shuffle_permutes : ∀ g l, Permutation l (shuffle g l).1.

Lemma loop_body_returns lr (W_bigram : Matrix) epoch st raw :
  shape V V (W st) → shape V V W_bigram → Forall (in_range V) raw →
  ∃ st', loop_body V start_idx end_idx lr W_bigram epoch st raw = Some st'
    ∧ shape V V (W st')
    ∧ length (losses st') = length (losses st) + 1
    ∧ length (bigram_losses st')
      = length (bigram_losses st) + (if decide (epoch = 0%Z) then 1 else 0)
    ∧ j st' = (j st + 1)%Z.
Proof.
  intros HW HB Hraw. unfold loop_body.
  rewrite (sgd_step_value V start_idx end_idx Hstart Hend lr (W st) raw HW Hraw).
  cbn [mbind option_bind out_inputs out_targets out_W out_loss].
  assert (Hsh : shape V V
            (mat_zip Rminus (W st)
               (mat_map (λ g, lr * g)%R
                  (gradient V (one_hot V <$> start_idx :: raw)
                     (mat_zip Rminus
                        (softmax_row_plain <$>
                           (row_of (W st) <$> start_idx :: raw))
                        (one_hot V <$> raw ++ [end_idx])))))).
  { apply shape_mat_zip; [done|]. apply shape_mat_map, shape_gradient. }
  destruct (decide (epoch = 0%Z)) as [He|He].
  - rewrite (predict_rows V start_idx Hstart)
      by (done || by apply Forall_cons).
    cbn [mbind option_bind]. eexists. split; [reflexivity|].
    cbn [W losses bigram_losses j]. rewrite !length_app. cbn [length].
    split; [exact Hsh|]. split; [lia|]. split; [lia|]. done.
  - cbn [mbind option_bind]. eexists. split; [reflexivity|].
    cbn [W losses bigram_losses j]. rewrite !length_app. cbn [length].
    split; [exact Hsh|]. split; [lia|]. split; [lia|]. done.
Qed.

Lemma sentence_loop lr (W_bigram : Matrix) epoch sentences : ∀ st,
  shape V V (W st) → shape V V W_bigram →
  Forall (Forall (in_range V)) sentences →
  ∃ st', for_each (loop_body V start_idx end_idx lr W_bigram epoch)
                  sentences st = Some st'
    ∧ shape V V (W st')
    ∧ length (losses st') = length (losses st) + length sentences
    ∧ length (bigram_losses st')
      = length (bigram_losses st)
        + (if decide (epoch = 0%Z) then length sentences else 0)
    ∧ j st' = (j st + Z.of_nat (length sentences))%Z.
Proof.
  induction sentences as [|raw sentences IH]; intros st HW HB Hall.
  - exists st. cbn [for_each length].
    split; [done|]. split; [done|]. split; [lia|].
    split; [case_decide; lia | lia].
  - apply Forall_cons in Hall as [Hraw Hall].
    destruct (loop_body_returns lr W_bigram epoch st raw HW HB Hraw)
      as (st1 & Hst1 & HW1 & Hl1 & Hb1 & Hj1).
    destruct (IH st1 HW1 HB Hall) as (st' & Hst' & HW' & Hl' & Hb' & Hj').
    exists st'. cbn [for_each]. rewrite Hst1. cbn [mbind option_bind].
    split; [done|]. split; [done|]. cbn [length].
    split; [lia|]. split; [case_decide; lia | lia].
Qed.

Lemma run_epoch_unfold lr (W_bigram : Matrix) st sentences g epoch :
  run_epoch V start_idx end_idx shuffle lr W_bigram (st, sentences, g) epoch
  = st' ← for_each (loop_body V start_idx end_idx lr W_bigram epoch)
                   (shuffle g sentences).1
                   (TrainState (W st) (losses st) (bigram_losses st) 0);
    Some (st', (shuffle g sentences).1, (shuffle g sentences).2).
Proof. reflexivity. Qed.

Lemma epoch_loop lr (W_bigram : Matrix) (m : nat) n : ∀ s st sentences g,
  shape V V (W st) → shape V V W_bigram →
  Forall (Forall (in_range V)) sentences → length sentences = m →
  ∃ st' sentences' g',
    for_each (run_epoch V start_idx end_idx shuffle lr W_bigram)
             (Z.of_nat <$> seq s n) (st, sentences, g)
    = Some (st', sentences', g')
    ∧ shape V V (W st')
    ∧ Permutation sentences sentences'
    ∧ length (losses st') = length (losses st) + n * m
    ∧ length (bigram_losses st')
      = length (bigram_losses st)
        + (if decide (s = 0 ∧ 0 < n) then m else 0).
Proof.
  induction n as [|n IH]; intros s st sentences g HW HB Hall Hm.
  - exists st, sentences, g. cbn [seq fmap list_fmap for_each].
    split; [done|]. split; [done|]. split; [done|]. split; [lia|].
    rewrite decide_False by lia. lia.
  - cbn [seq fmap list_fmap for_each]. rewrite run_epoch_unfold.
    pose proof (shuffle_permutes g sentences) as Hperm.
    assert (Hall' : Forall (Forall (in_range V)) (shuffle g sentences).1)
      by (by rewrite <- Hperm).
    destruct (sentence_loop lr W_bigram (Z.of_nat s) (shuffle g sentences).1
                (TrainState (W st) (losses st) (bigram_losses st) 0)
                HW HB Hall')
      as (st1 & Hst1 & HW1 & Hl1 & Hb1 & _).
    rewrite Hst1. cbn [mbind option_bind].
    assert (Hm1 : length (shuffle g sentences).1 = m)
      by (by rewrite <- Hperm).
    destruct (IH (S s) st1 (shuffle g sentences).1 (shuffle g sentences).2
                HW1 HB Hall' Hm1)
      as (st' & ss' & g' & Hrun & HW' & Hp' & Hl' & Hb').
    exists st', ss', g'. split; [exact Hrun|]. split; [done|].
    split; [by rewrite Hperm|].
    cbn [losses bigram_losses] in Hl1, Hb1. rewrite Hm1 in Hl1, Hb1.
    split; [lia|]. rewrite Hb', Hb1.
    rewrite (decide_False (P := S s = 0 ∧ _)) by lia.
    destruct (decide (s = 0)) as [->|Hs].
    + rewrite !decide_True by (done || lia). lia.
    + rewrite !decide_False by lia. lia.
Qed.

(** When the weights are V×V and the corpus is over [0, V), training raises
    nothing, keeps the weights V×V and the sentences a permutation of the
    corpus, records one loss per sentence and epoch, and records one bigram
    loss per sentence in the first epoch only. *)
Theorem train_bookkeeping lr (W_bigram W0 : Matrix) epochs sentences g :
  shape V V W0 → shape V V W_bigram →
  Forall (Forall (in_range V)) sentences →
  ∃ st sentences' g',
    train V start_idx end_idx shuffle lr W_bigram epochs W0 sentences g
    = Some (st, sentences', g')
    ∧ shape V V (W st)
    ∧ Permutation sentences sentences'
    ∧ length (losses st) = epochs * length sentences
    ∧ length (bigram_losses st)
      = (if decide (epochs = 0) then 0 else length sentences).
Proof.
  intros HW HB Hall. unfold train.
  destruct (epoch_loop lr W_bigram (length sentences) epochs 0
              (TrainState W0 [] [] 0) sentences g HW HB Hall eq_refl)
    as (st & ss & g' & Hrun & HW' & Hp & Hl & Hb).
  exists st, ss, g'. split; [exact Hrun|]. split; [done|]. split; [done|].
  cbn [losses bigram_losses length] in Hl, Hb. split; [lia|].
  rewrite Hb. destruct epochs.
  - rewrite decide_False by lia. by rewrite decide_True.
  - rewrite decide_True by lia. by rewrite decide_False.
Qed.
End TrainingFacts.

Lemma train_bookkeeping_witness :
  ∃ st sentences' g',
    train 4 0 1 (λ (g : unit) l, (reverse l, g)) lr_script (np_zeros 4 4)
          epochs_script (np_zeros 4 4) [[2; 3]; [3]]%Z ()
    = Some (st, sentences', g')
    ∧ shape 4 4 (W st)
    ∧ Permutation [[2; 3]; [3]]%Z sentences'
    ∧ length (losses st) = epochs_script * length [[2; 3]; [3]]%Z
    ∧ length (bigram_losses st)
      = (if decide (epochs_script = 0) then 0 else length [[2; 3]; [3]]%Z).
Proof.
  apply (train_bookkeeping 4 0 1).
  - solve_in_range.
  - solve_in_range.
  - intros g l. simpl. by rewrite reverse_Permutation.
  - apply shape_np_zeros.
  - apply shape_np_zeros.
  - repeat constructor; solve_in_range.
Defined.
